(** * The chatbot flow builder: graph model and connection validation

    A shallow embedding of the route component [App] of the flow builder
    (the revision with toasts, edge selection and the cycle check), and
    the proofs of its graph properties.

    The component keeps its state in React hooks; a handler reads the
    values of the current render and calls setters.  Here the hook values
    are the fields of [AppState], a handler is a function from states to
    states, and the messages passed to [toast] are appended to the field
    [toasts]. *)

From stdpp Require Import base decidable option list sets gmap strings pretty relations.
From Stdlib Require Import QArith.

Local Close Scope Q_scope.
Local Open Scope string_scope.
Local Open Scope list_scope.
Local Open Scope nat_scope.

(** * Part I: the model *)

(** ** Data model *)

(** [XYPosition] of the flow library, [{ x: number, y: number }].  The
    coordinates are only stored and copied. *)
Record XYPosition := { x : Q; y : Q }.

Record NodeData := { message : string }.

(** [Node] of the flow library, with the fields the component sets. *)
Module Node.
Record t := {
  id : string;
  type : string;
  position : XYPosition;
  data : NodeData;
}.
End Node.

(** The handle id that an edge carries: [sourceHandle?: string | null], so
    a string, [null], or no value at all. *)
Module Handle.
Inductive t :=
  | undefined
  | null
  | id (name : string).
End Handle.

(** [Edge] of the flow library. *)
Module Edge.
Record t := {
  id : string;
  source : string;
  sourceHandle : Handle.t;
  target : string;
  targetHandle : Handle.t;
}.
End Edge.

(** [Connection] of the flow library: what [onConnect] receives.  Its
    handles are [string | null]. *)
Record Connection := {
  source : string;
  sourceHandle : option string;
  target : string;
  targetHandle : option string;
}.

(** JavaScript truthiness of a string, and of [string | null]. *)
Definition truthy (s : string) : bool := negb (bool_decide (s = "")).

Definition truthy_opt (o : option string) : bool :=
  match o with
  | Some s => truthy s
  | None => false
  end.

(** The handle of a connection as a handle value, the truthiness of a
    handle value, and [===] between two handle values. *)
Definition connectionHandle (h : option string) : Handle.t :=
  match h with
  | Some name => Handle.id name
  | None => Handle.null
  end.

Definition truthy_handle (h : Handle.t) : bool :=
  match h with
  | Handle.id name => truthy name
  | _ => false
  end.

Definition strictEq (h h' : Handle.t) : bool :=
  match h, h' with
  | Handle.undefined, Handle.undefined => true
  | Handle.null, Handle.null => true
  | Handle.id name, Handle.id name' => bool_decide (name = name')
  | _, _ => false
  end.

(** ** The cycle check *)

(** The [for ... of] loop of [hasPath]: it runs [body] on the edges in
    order, threading the visited set, and returns at the first [true]. *)
Fixpoint forOutgoing (body : Edge.t → gset string → option (bool * gset string))
    (outgoingEdges : list Edge.t) (visited : gset string)
    : option (bool * gset string) :=
  match outgoingEdges with
  | [] => Some (false, visited)
  | edge :: rest =>
      match body edge visited with
      | None => None
      | Some (true, visited') => Some (true, visited')
      | Some (false, visited') => forOutgoing body rest visited'
      end
  end.

(** The recursive closure [hasPath] of [wouldCreateCycle].  The set
    [visited] that the closure captures and mutates is threaded through
    the calls.  [fuel] bounds the depth of the recursion; [None] means the
    bound was reached. *)
Fixpoint hasPath (fuel : nat) (edges : list Edge.t) (from to : string)
    (visited : gset string) : option (bool * gset string) :=
  match fuel with
  | O => None
  | S fuel' =>
      if bool_decide (from = to) then Some (true, visited)
      else if bool_decide (from ∈ visited) then Some (false, visited)
      else
        let visited := visited ∪ {[from]} in
        let outgoingEdges :=
          List.filter (λ edge, bool_decide (Edge.source edge = from)) edges in
        forOutgoing
          (λ edge visited, hasPath fuel' edges (Edge.target edge) to visited)
          outgoingEdges visited
  end.

(** [wouldCreateCycle(sourceId, targetId)]: a fresh visited set, and
    [hasPath(targetId, sourceId)].  The depth of the recursion never
    exceeds the number of edges plus one ([hasPath_enough_fuel]). *)
Definition wouldCreateCycle (edges : list Edge.t) (sourceId targetId : string) : bool :=
  match hasPath (S (length edges)) edges targetId sourceId ∅ with
  | Some (found, _) => found
  | None => false
  end.

(** [areAllNodesConnected]: the local set [connectedNodeIds] is filled by
    the [forEach] over the edges, then every node id is looked up in it. *)
Definition connectedNodeIds (edges : list Edge.t) : gset string :=
  foldl (λ ids edge, ids ∪ {[Edge.source edge]} ∪ {[Edge.target edge]}) ∅ edges.

Definition areAllNodesConnected (nodes : list Node.t) (edges : list Edge.t) : bool :=
  if bool_decide (length nodes ≤ 1)%nat then true
  else forallb (λ node, bool_decide (Node.id node ∈ connectedNodeIds edges)) nodes.

(** ** The flow library's [addEdge] *)

(** Modelled from the spec: the id that the flow library gives to a new
    edge is computed inside the library ([@xyflow/react]), which is not
    among the sources.  The spec only says that the edge is assigned an
    id; here the id is built from the endpoints and the handles.  No
    theorem below depends on it. *)
Definition getEdgeId (params : Connection) : string :=
  "xy-edge__" +:+ source params +:+ default "" (sourceHandle params)
    +:+ "-" +:+ target params +:+ default "" (targetHandle params).

(** Modelled from the spec: the duplicate test of the library's [addEdge],
    which is not among the sources: an edge between the same endpoints
    exists whose handles are identical to the new edge's, or missing where
    the new edge's are missing. *)
Definition connectionExists (edge : Edge.t) (edges : list Edge.t) : bool :=
  existsb
    (λ el,
       bool_decide (Edge.source el = Edge.source edge)
       && bool_decide (Edge.target el = Edge.target edge)
       && (strictEq (Edge.sourceHandle el) (Edge.sourceHandle edge)
           || (negb (truthy_handle (Edge.sourceHandle el))
               && negb (truthy_handle (Edge.sourceHandle edge))))
       && (strictEq (Edge.targetHandle el) (Edge.targetHandle edge)
           || (negb (truthy_handle (Edge.targetHandle el))
               && negb (truthy_handle (Edge.targetHandle edge)))))
    edges.

(** A [null] handle is not stored: the property is deleted from the
    edge. *)
Definition dropNull (h : Handle.t) : Handle.t :=
  match h with
  | Handle.null => Handle.undefined
  | _ => h
  end.

(** Modelled from the spec: [addEdge] is a function of the flow library
    and is not among the sources.  The spec says that on acceptance the
    edge is assigned an id and appended, with the endpoints and handles
    of the connection.  The library does so with three provisos that the
    handlers depend on: it returns the edges as they are when an endpoint
    id is missing, and when the connection exists already; and it stores a
    [null] handle as no handle. *)
Definition addEdge (params : Connection) (edges : list Edge.t) : list Edge.t :=
  if negb (truthy (source params)) || negb (truthy (target params)) then edges
  else
    let edge :=
      {| Edge.id := getEdgeId params;
         Edge.source := source params;
         Edge.sourceHandle := connectionHandle (sourceHandle params);
         Edge.target := target params;
         Edge.targetHandle := connectionHandle (targetHandle params) |} in
    if connectionExists edge edges then edges
    else
      edges ++ [ {| Edge.id := Edge.id edge;
                    Edge.source := Edge.source edge;
                    Edge.sourceHandle := dropNull (Edge.sourceHandle edge);
                    Edge.target := Edge.target edge;
                    Edge.targetHandle := dropNull (Edge.targetHandle edge) |} ].

(** ** Component state *)

(** The hook values of [App]: the flow state ([useNodesState],
    [useEdgesState]), the three persisted atoms, the selection and the
    settings panel.  [nodeIdCounter] is a JavaScript number that starts at
    2 and is only ever incremented or reset, so it is a natural number.
    [toasts] collects the messages passed to [toast], oldest first. *)
Record AppState := {
  nodes : list Node.t;
  edges : list Edge.t;
  persistedNodes : list Node.t;
  persistedEdges : list Edge.t;
  nodeIdCounter : N;
  selectedNodeId : option string;
  selectedEdgeId : option string;
  messageText : string;
  showSettings : bool;
  toasts : list string;
}.

(** The setters of the hooks. *)
Definition setNodes (v : list Node.t) (st : AppState) : AppState :=
  {| nodes := v; edges := edges st; persistedNodes := persistedNodes st;
     persistedEdges := persistedEdges st; nodeIdCounter := nodeIdCounter st;
     selectedNodeId := selectedNodeId st;
     selectedEdgeId := selectedEdgeId st; messageText := messageText st;
     showSettings := showSettings st; toasts := toasts st |}.

Definition setEdges (v : list Edge.t) (st : AppState) : AppState :=
  {| nodes := nodes st; edges := v; persistedNodes := persistedNodes st;
     persistedEdges := persistedEdges st; nodeIdCounter := nodeIdCounter st;
     selectedNodeId := selectedNodeId st;
     selectedEdgeId := selectedEdgeId st; messageText := messageText st;
     showSettings := showSettings st; toasts := toasts st |}.

Definition setPersistedNodes (v : list Node.t) (st : AppState) : AppState :=
  {| nodes := nodes st; edges := edges st; persistedNodes := v;
     persistedEdges := persistedEdges st; nodeIdCounter := nodeIdCounter st;
     selectedNodeId := selectedNodeId st;
     selectedEdgeId := selectedEdgeId st; messageText := messageText st;
     showSettings := showSettings st; toasts := toasts st |}.

Definition setPersistedEdges (v : list Edge.t) (st : AppState) : AppState :=
  {| nodes := nodes st; edges := edges st;
     persistedNodes := persistedNodes st; persistedEdges := v;
     nodeIdCounter := nodeIdCounter st; selectedNodeId := selectedNodeId st;
     selectedEdgeId := selectedEdgeId st; messageText := messageText st;
     showSettings := showSettings st; toasts := toasts st |}.

Definition setNodeIdCounter (v : N) (st : AppState) : AppState :=
  {| nodes := nodes st; edges := edges st;
     persistedNodes := persistedNodes st;
     persistedEdges := persistedEdges st; nodeIdCounter := v;
     selectedNodeId := selectedNodeId st;
     selectedEdgeId := selectedEdgeId st; messageText := messageText st;
     showSettings := showSettings st; toasts := toasts st |}.

Definition setSelectedNodeId (v : option string) (st : AppState) : AppState :=
  {| nodes := nodes st; edges := edges st;
     persistedNodes := persistedNodes st;
     persistedEdges := persistedEdges st; nodeIdCounter := nodeIdCounter st;
     selectedNodeId := v; selectedEdgeId := selectedEdgeId st;
     messageText := messageText st; showSettings := showSettings st;
     toasts := toasts st |}.

Definition setSelectedEdgeId (v : option string) (st : AppState) : AppState :=
  {| nodes := nodes st; edges := edges st;
     persistedNodes := persistedNodes st;
     persistedEdges := persistedEdges st; nodeIdCounter := nodeIdCounter st;
     selectedNodeId := selectedNodeId st; selectedEdgeId := v;
     messageText := messageText st; showSettings := showSettings st;
     toasts := toasts st |}.

Definition setMessageText (v : string) (st : AppState) : AppState :=
  {| nodes := nodes st; edges := edges st;
     persistedNodes := persistedNodes st;
     persistedEdges := persistedEdges st; nodeIdCounter := nodeIdCounter st;
     selectedNodeId := selectedNodeId st;
     selectedEdgeId := selectedEdgeId st; messageText := v;
     showSettings := showSettings st; toasts := toasts st |}.

Definition setShowSettings (v : bool) (st : AppState) : AppState :=
  {| nodes := nodes st; edges := edges st;
     persistedNodes := persistedNodes st;
     persistedEdges := persistedEdges st; nodeIdCounter := nodeIdCounter st;
     selectedNodeId := selectedNodeId st;
     selectedEdgeId := selectedEdgeId st; messageText := messageText st;
     showSettings := v; toasts := toasts st |}.

(** [toast(msg)]. *)
Definition toast (msg : string) (st : AppState) : AppState :=
  {| nodes := nodes st; edges := edges st;
     persistedNodes := persistedNodes st;
     persistedEdges := persistedEdges st; nodeIdCounter := nodeIdCounter st;
     selectedNodeId := selectedNodeId st;
     selectedEdgeId := selectedEdgeId st; messageText := messageText st;
     showSettings := showSettings st; toasts := toasts st ++ [msg] |}.

(** ** Handlers *)

(** [defaultNodes], the initial value of the node atom. *)
Definition defaultNodes : list Node.t :=
  [ {| Node.id := "1";
       Node.type := "messageNode";
       Node.position := {| x := 250%Q; y := 50%Q |};
       Node.data := {| message := "Hello! Welcome to our Bitespeed." |} |} ].

(** The state of the first render with an empty store: the atoms hold
    their defaults. *)
Definition initialState : AppState :=
  {| nodes := defaultNodes; edges := [];
     persistedNodes := defaultNodes; persistedEdges := [];
     nodeIdCounter := 2;
     selectedNodeId := None; selectedEdgeId := None;
     messageText := ""; showSettings := false; toasts := [] |}.

(** The messages of the toasts. *)
Definition msgSelfLoop : string := "Cannot connect a node to itself!".
Definition msgHandleAlreadyConnected : string :=
  "Source handle can only have one outgoing connection!".
Definition msgWouldCreateCycle : string :=
  "Cannot create circular connections! Chatbot flows must be linear.".
Definition msgConnectionRemoved : string := "Connection removed!".
Definition msgSaveBlocked : string :=
  "Cannot save! All nodes must be connected to the flow.".
Definition msgSaved : string :=
  "Flow saved successfully! All nodes are properly connected.".

(** [edges.some(edge => edge.source === params.source &&
    edge.sourceHandle === params.sourceHandle)]. *)
Definition sourceHasEdge (params : Connection) (edges : list Edge.t) : bool :=
  existsb
    (λ edge, bool_decide (Edge.source edge = source params)
             && strictEq (Edge.sourceHandle edge)
                  (connectionHandle (sourceHandle params)))
    edges.

Definition onConnect (params : Connection) (st : AppState) : AppState :=
  if negb (truthy (source params)) || negb (truthy (target params)) then st
  else if bool_decide (source params = target params) then toast msgSelfLoop st
  else if sourceHasEdge params (edges st) then toast msgHandleAlreadyConnected st
  else if wouldCreateCycle (edges st) (source params) (target params)
  then toast msgWouldCreateCycle st
  else
    let newEdges := addEdge params (edges st) in
    setPersistedEdges newEdges (setEdges newEdges st).

Definition onNodeClick (node : Node.t) (st : AppState) : AppState :=
  setShowSettings true
    (setMessageText (message (Node.data node))
       (setSelectedEdgeId None
          (setSelectedNodeId (Some (Node.id node)) st))).

Definition onEdgeClick (edge : Edge.t) (st : AppState) : AppState :=
  setSelectedNodeId None (setSelectedEdgeId (Some (Edge.id edge)) st).

Definition onPaneClick (st : AppState) : AppState :=
  setSelectedEdgeId None (setSelectedNodeId None st).

Definition deleteSelectedEdge (st : AppState) : AppState :=
  if negb (truthy_opt (selectedEdgeId st)) then st
  else
    let newEdges :=
      List.filter (λ edge, bool_decide (Some (Edge.id edge) ≠ selectedEdgeId st))
        (edges st) in
    toast msgConnectionRemoved
      (setSelectedEdgeId None
         (setPersistedEdges newEdges (setEdges newEdges st))).

(** The white space that [String.prototype.trim] strips: the WhiteSpace
    and LineTerminator characters of the language.  A text is held here as
    its UTF-8 bytes, so a character is one, two or three bytes:
    U+0009..U+000D and U+0020; U+00A0; and U+1680, U+2000..U+200A, U+2028,
    U+2029, U+202F, U+205F, U+3000 and U+FEFF. *)
Definition whiteSpace1 (c : Ascii.ascii) : bool := Ascii.is_space c.

Definition whiteSpace2 (c1 c2 : Ascii.ascii) : bool :=
  ((Ascii.N_of_ascii c1 =? 194) && (Ascii.N_of_ascii c2 =? 160))%N.

Definition whiteSpace3 (c1 c2 c3 : Ascii.ascii) : bool :=
  let a := Ascii.N_of_ascii c1 in
  let b := Ascii.N_of_ascii c2 in
  let c := Ascii.N_of_ascii c3 in
  ((a =? 225) && (b =? 154) && (c =? 128)
   || (a =? 226) && (b =? 128)
      && ((128 <=? c) && (c <=? 138) || (c =? 168) || (c =? 169) || (c =? 175))
   || (a =? 226) && (b =? 129) && (c =? 159)
   || (a =? 227) && (b =? 128) && (c =? 128)
   || (a =? 239) && (b =? 187) && (c =? 191))%N.

(** Strips the white space at the front of a list of bytes; [sp2] and
    [sp3] recognise the characters of two and of three bytes. *)
Fixpoint stripLeading (sp2 : Ascii.ascii → Ascii.ascii → bool)
    (sp3 : Ascii.ascii → Ascii.ascii → Ascii.ascii → bool) (l : list Ascii.ascii) : list Ascii.ascii :=
  match l with
  | c1 :: r1 =>
      if whiteSpace1 c1 then stripLeading sp2 sp3 r1
      else
        match r1 with
        | c2 :: r2 =>
            if sp2 c1 c2 then stripLeading sp2 sp3 r2
            else
              match r2 with
              | c3 :: r3 =>
                  if sp3 c1 c2 c3 then stripLeading sp2 sp3 r3 else l
              | [] => l
              end
        | [] => l
        end
  | [] => []
  end.

(** [String.prototype.trim]: the white space is stripped at the front,
    and at the end by going through the reversed bytes. *)
Definition trim (s : string) : string :=
  String.string_of_list_ascii
    (rev (stripLeading (λ c2 c1, whiteSpace2 c1 c2)
            (λ c3 c2 c1, whiteSpace3 c1 c2 c3)
            (rev (stripLeading whiteSpace2 whiteSpace3
                    (String.list_ascii_of_string s))))).

(** [createMessageNode].  [position] stands for the point drawn with
    [Math.random]; [pretty] writes the counter in decimal, as [toString]
    does for a natural number. *)
Definition createMessageNode (position : XYPosition) (st : AppState) : AppState :=
  if negb (truthy (trim (messageText st))) then st
  else
    let newNode :=
      {| Node.id := pretty (nodeIdCounter st);
         Node.type := "messageNode";
         Node.position := position;
         Node.data := {| message := messageText st |} |} in
    let newNodes := (nodes st ++ [newNode])%list in
    setMessageText ""
      (setNodeIdCounter (nodeIdCounter st + 1)
         (setPersistedNodes newNodes (setNodes newNodes st))).

Definition updateSelectedNode (st : AppState) : AppState :=
  if negb (truthy_opt (selectedNodeId st)) || negb (truthy (trim (messageText st)))
  then st
  else
    let newNodes :=
      map (λ node,
             if bool_decide (Some (Node.id node) = selectedNodeId st)
             then {| Node.id := Node.id node;
                     Node.type := Node.type node;
                     Node.position := Node.position node;
                     Node.data := {| message := messageText st |} |}
             else node)
        (nodes st) in
    setShowSettings false
      (setSelectedNodeId None
         (setMessageText ""
            (setPersistedNodes newNodes (setNodes newNodes st)))).

Definition deleteSelectedNode (st : AppState) : AppState :=
  if negb (truthy_opt (selectedNodeId st)) then st
  else
    let newNodes :=
      List.filter (λ node, bool_decide (Some (Node.id node) ≠ selectedNodeId st))
        (nodes st) in
    let newEdges :=
      List.filter
        (λ edge, bool_decide (Some (Edge.source edge) ≠ selectedNodeId st)
                 && bool_decide (Some (Edge.target edge) ≠ selectedNodeId st))
        (edges st) in
    setMessageText ""
      (setShowSettings false
         (setSelectedNodeId None
            (setPersistedEdges newEdges
               (setEdges newEdges
                  (setPersistedNodes newNodes (setNodes newNodes st)))))).

Definition handleClearAll (st : AppState) : AppState :=
  setMessageText ""
    (setShowSettings false
       (setSelectedEdgeId None
          (setSelectedNodeId None
             (setNodeIdCounter 2
                (setPersistedEdges []
                   (setPersistedNodes defaultNodes
                      (setEdges [] (setNodes defaultNodes st)))))))).

Definition saveChanges (st : AppState) : AppState :=
  if negb (areAllNodesConnected (nodes st) (edges st)) then toast msgSaveBlocked st
  else toast msgSaved st.

(** The [Cancel] button and the [Message] button of the settings panel. *)
Definition cancelSettings (st : AppState) : AppState :=
  setMessageText "" (setSelectedNodeId None (setShowSettings false st)).

Definition toggleSettings (st : AppState) : AppState :=
  setShowSettings (negb (showSettings st)) st.

(** ** Events *)

(** What the user can do, one constructor per handler that the component
    defines and passes to the flow surface, to a button or to the text
    area.  The changes that the flow surface applies on its own (dragging,
    measuring, its own removal of selected elements) go through the
    library's [applyNodeChanges] and [applyEdgeChanges] and are not events
    here. *)
Inductive Event :=
  | Connect (params : Connection)
  | NodeClick (node : Node.t)
  | EdgeClick (edge : Edge.t)
  | PaneClick
  | DeleteEdge
  | TypeMessage (text : string)
  | CreateNode (position : XYPosition)
  | UpdateNode
  | DeleteNode
  | ClearAll
  | Save
  | Cancel
  | ToggleSettings.

Definition handle (ev : Event) (st : AppState) : AppState :=
  match ev with
  | Connect params => onConnect params st
  | NodeClick node => onNodeClick node st
  | EdgeClick edge => onEdgeClick edge st
  | PaneClick => onPaneClick st
  | DeleteEdge => deleteSelectedEdge st
  | TypeMessage text => setMessageText text st
  | CreateNode position => createMessageNode position st
  | UpdateNode => updateSelectedNode st
  | DeleteNode => deleteSelectedNode st
  | ClearAll => handleClearAll st
  | Save => saveChanges st
  | Cancel => cancelSettings st
  | ToggleSettings => toggleSettings st
  end.

(** The events are handled one at a time, each to completion. *)
Definition run (evs : list Event) (st : AppState) : AppState :=
  foldl (λ st ev, handle ev st) st evs.

Definition reachable (st : AppState) : Prop :=
  ∃ evs, st = run evs initialState.

(** ** Properties of the graph *)

(** One edge of the list leads from [a] to [b]. *)
Definition edge_rel (edges : list Edge.t) (a b : string) : Prop :=
  ∃ edge, edge ∈ edges ∧ Edge.source edge = a ∧ Edge.target edge = b.

(** A directed path of zero or more edges, and of one or more edges. *)
Definition path (edges : list Edge.t) : relation string := rtc (edge_rel edges).
Definition path1 (edges : list Edge.t) : relation string := tc (edge_rel edges).

(** No node reaches itself through one or more edges. *)
Definition acyclic (edges : list Edge.t) : Prop := ∀ a, ¬ path1 edges a a.

(** The node ids that are the source of some edge. *)
Definition sources (edges : list Edge.t) : gset string :=
  list_to_set (map Edge.source edges).

(** What a finished search from [from] for [to] guarantees: the visited
    set only grows and never receives [to]; on [true] there is a path; on
    [false] the start is visited and every node visited by this search has
    all its successors visited. *)
Definition search_post (edges : list Edge.t) (to from : string)
    (visited : gset string) (found : bool) (visited' : gset string) : Prop :=
  visited ⊆ visited' ∧ (to ∉ visited') ∧
  (if found then path edges from to
   else from ∈ visited' ∧
        ∀ a, a ∈ visited' → a ∉ visited → ∀ c, edge_rel edges a c → c ∈ visited').

(** The part of the state that is the graph: the nodes, the edges, their
    persisted copies and the id allocator. *)
Definition same_graph (st st' : AppState) : Prop :=
  nodes st' = nodes st ∧ edges st' = edges st ∧
  persistedNodes st' = persistedNodes st ∧
  persistedEdges st' = persistedEdges st ∧
  nodeIdCounter st' = nodeIdCounter st.

(** The edge that [addEdge] appends for a connection. *)
Definition newEdge (params : Connection) : Edge.t :=
  {| Edge.id := getEdgeId params;
     Edge.source := source params;
     Edge.sourceHandle := dropNull (connectionHandle (sourceHandle params));
     Edge.target := target params;
     Edge.targetHandle := dropNull (connectionHandle (targetHandle params)) |}.

(** What [sourceHasEdge] tests: an edge of the list leaves the source of
    the connection with a handle value identical to the connection's. *)
Definition handle_taken (params : Connection) (edges : list Edge.t) : Prop :=
  ∃ edge, edge ∈ edges ∧ Edge.source edge = source params ∧
          Edge.sourceHandle edge = connectionHandle (sourceHandle params).

(** Two handle values name the same handle: they are identical, or both
    stand for the handle without id ([null], absent or empty). *)
Definition same_handle (h h' : Handle.t) : Prop :=
  h = h' ∨ (truthy_handle h = false ∧ truthy_handle h' = false).

(** An edge of the list leaves the source handle of the connection. *)
Definition handle_in_use (params : Connection) (edges : list Edge.t) : Prop :=
  ∃ edge, edge ∈ edges ∧ Edge.source edge = source params ∧
          same_handle (Edge.sourceHandle edge)
            (connectionHandle (sourceHandle params)).

(** The five ways [onConnect] can go, each with the checks that led to
    it. *)
Inductive onConnect_outcome (params : Connection) (st : AppState) : AppState → Prop :=
  | outcome_missing :
      source params = "" ∨ target params = "" →
      onConnect_outcome params st st
  | outcome_self_loop :
      source params ≠ "" → target params ≠ "" →
      source params = target params →
      onConnect_outcome params st (toast msgSelfLoop st)
  | outcome_handle_taken :
      source params ≠ "" → target params ≠ "" →
      source params ≠ target params →
      handle_taken params (edges st) →
      onConnect_outcome params st (toast msgHandleAlreadyConnected st)
  | outcome_cycle :
      source params ≠ "" → target params ≠ "" →
      source params ≠ target params →
      ¬ handle_taken params (edges st) →
      path (edges st) (target params) (source params) →
      onConnect_outcome params st (toast msgWouldCreateCycle st)
  | outcome_accept :
      source params ≠ "" → target params ≠ "" →
      source params ≠ target params →
      ¬ handle_taken params (edges st) →
      ¬ path (edges st) (target params) (source params) →
      onConnect_outcome params st
        (setPersistedEdges (addEdge params (edges st))
           (setEdges (addEdge params (edges st)) st)).

(** The number of edges that leave the node [s] with the handle value
    [h]. *)
Definition fan_out (edges : list Edge.t) (s : string) (h : Handle.t) : nat :=
  length (List.filter
            (λ edge, bool_decide (Edge.source edge = s)
                     && strictEq (Edge.sourceHandle edge) h)
            edges).

(** The allocator is ahead of every node id, and the ids differ. *)
Definition allocated (st : AppState) : Prop :=
  NoDup (map Node.id (nodes st)) ∧
  ∀ i, i ∈ map Node.id (nodes st) →
    ∃ k : N, (k < nodeIdCounter st)%N ∧ i = pretty k.

(** The number of edges that start or end at the node [X]. *)
Definition incident (edges : list Edge.t) (X : string) : nat :=
  length (List.filter
            (λ edge, bool_decide (Edge.source edge = X)
                     || bool_decide (Edge.target edge = X))
            edges).

(** The node ids that an event brings into the graph, and the ids that a
    sequence of events brings in, in order. *)
Definition newIds (ev : Event) (st : AppState) : list string :=
  List.filter (λ i, bool_decide (i ∉ map Node.id (nodes st)))
    (map Node.id (nodes (handle ev st))).

Fixpoint issued (evs : list Event) (st : AppState) : list string :=
  match evs with
  | [] => []
  | ev :: evs => newIds ev st ++ issued evs (handle ev st)
  end.

(** ** Sample states *)

Definition somewhere : XYPosition := {| x := 120%Q; y := 80%Q |}.

(** A connection between two nodes whose handles have no id, as the
    handles of [MessageNode] are. *)
Definition conn (s t : string) : Connection :=
  {| source := s; sourceHandle := None; target := t; targetHandle := None |}.

(** Two more nodes, and the chain 1 → 2 → 3. *)
Definition chain_events : list Event :=
  [ TypeMessage "a"; CreateNode somewhere;
    TypeMessage "b"; CreateNode somewhere;
    Connect (conn "1" "2"); Connect (conn "2" "3") ].

Definition chain : AppState := run chain_events initialState.

(** Two more nodes, and two connections drawn from node 1. *)
Definition fork_events : list Event :=
  [ TypeMessage "a"; CreateNode somewhere;
    TypeMessage "b"; CreateNode somewhere;
    Connect (conn "1" "2"); Connect (conn "1" "3") ].

Definition fork : AppState := run fork_events initialState.

(** Three more nodes, and the two edges 1 → 2 and 3 → 4: every node is
    connected, and no edge leaves node 2. *)
Definition two_pairs : AppState :=
  run [ TypeMessage "a"; CreateNode somewhere;
        TypeMessage "b"; CreateNode somewhere;
        TypeMessage "c"; CreateNode somewhere;
        Connect (conn "1" "2"); Connect (conn "3" "4") ] initialState.

(** A no-break space, U+00A0, as its two bytes. *)
Definition noBreakSpace : string :=
  String.String (Ascii.ascii_of_nat 194)
    (String.String (Ascii.ascii_of_nat 160) String.EmptyString).

(** The chain 1 → 2 → 3 with node 2 clicked and a new text typed. *)
Definition chain_selected_typed : AppState :=
  run (chain_events ++
       [NodeClick {| Node.id := "2"; Node.type := "messageNode";
                     Node.position := somewhere;
                     Node.data := {| message := "a" |} |};
        TypeMessage "new text"])
    initialState.

(** The chain 1 → 2 → 3 with a text typed for the next node. *)
Definition chain_typed_events : list Event := chain_events ++ [TypeMessage "c"].

Definition chain_typed : AppState := run chain_typed_events initialState.

(** A diamond 1 → 2 → 4, 1 → 3 → 4: node 4 is reached twice and expanded
    once. *)
Definition diamond : list Edge.t :=
  map (λ '(s, t), {| Edge.id := s +:+ "-" +:+ t; Edge.source := s;
                     Edge.sourceHandle := Handle.undefined; Edge.target := t;
                     Edge.targetHandle := Handle.undefined |})
    [("1", "2"); ("1", "3"); ("2", "4"); ("3", "4")].

(** The chain 1 → 2 → 3 with node 2 clicked. *)
Definition chain_selected : AppState :=
  run (chain_events ++
       [NodeClick {| Node.id := "2"; Node.type := "messageNode";
                     Node.position := somewhere;
                     Node.data := {| message := "a" |} |}])
    initialState.

(** ** The rest of the component *)

(** [handleKeyDown] of the keyboard effect: the Delete key removes the
    selected edge. *)
Definition handleKeyDown (key : string) (st : AppState) : AppState :=
  if bool_decide (key = "Delete") && truthy_opt (selectedEdgeId st)
  then deleteSelectedEdge st
  else st.

(** What a render derives from the state: [canSave], which disables the
    Save buttons when it is false; the condition of the warning card,
    [!canSave && nodes.length > 1]; and [!messageText.trim()], which
    disables the Create and Update buttons. *)
Definition canSave (st : AppState) : bool :=
  areAllNodesConnected (nodes st) (edges st).

Definition showWarning (st : AppState) : bool :=
  negb (canSave st) && bool_decide (1 < length (nodes st)).

Definition submitDisabled (st : AppState) : bool :=
  negb (truthy (trim (messageText st))).

(** The toasts are the only output; this replaces the whole log. *)
Definition setToasts (v : list string) (st : AppState) : AppState :=
  {| nodes := nodes st; edges := edges st;
     persistedNodes := persistedNodes st;
     persistedEdges := persistedEdges st;
     nodeIdCounter := nodeIdCounter st;
     selectedNodeId := selectedNodeId st;
     selectedEdgeId := selectedEdgeId st; messageText := messageText st;
     showSettings := showSettings st; toasts := v |}.

(** A text of white space only (or empty). *)
Fixpoint blankBytes (l : list Ascii.ascii) : bool :=
  match l with
  | c1 :: r1 =>
      if whiteSpace1 c1 then blankBytes r1
      else
        match r1 with
        | c2 :: r2 =>
            if whiteSpace2 c1 c2 then blankBytes r2
            else
              match r2 with
              | c3 :: r3 => whiteSpace3 c1 c2 c3 && blankBytes r3
              | [] => false
              end
        | [] => false
        end
  | [] => true
  end.

Definition blank (s : string) : bool := blankBytes (String.list_ascii_of_string s).

(** A white-space character at the front of a list of bytes. *)
Inductive space_token (sp2 : Ascii.ascii → Ascii.ascii → bool)
    (sp3 : Ascii.ascii → Ascii.ascii → Ascii.ascii → bool) : list Ascii.ascii → Prop :=
  | token1 c : whiteSpace1 c = true → space_token sp2 sp3 [c]
  | token2 c1 c2 : sp2 c1 c2 = true → space_token sp2 sp3 [c1; c2]
  | token3 c1 c2 c3 : sp3 c1 c2 c3 = true → space_token sp2 sp3 [c1; c2; c3].

(** Every edge starts and ends at a node of the list. *)
Definition no_dangling (nodes : list Node.t) (edges : list Edge.t) : Prop :=
  ∀ edge, edge ∈ edges →
    Edge.source edge ∈ map Node.id nodes ∧ Edge.target edge ∈ map Node.id nodes.

(** The connect events of the sequence join nodes that exist when the
    event arrives, as the connections drawn on the flow surface do. *)
Fixpoint well_aimed (evs : list Event) (st : AppState) : Prop :=
  match evs with
  | [] => True
  | ev :: evs =>
      match ev with
      | Connect params =>
          source params ∈ map Node.id (nodes st) ∧
          target params ∈ map Node.id (nodes st)
      | _ => True
      end ∧ well_aimed evs (handle ev st)
  end.

(** ** The earlier revision of the route *)

(** The handlers of [src/routes/index.tsx] that differ from the ones
    above.  That revision has no edge selection ([selectedEdgeId] is never
    set) and shows its messages with [alert]; the messages are collected
    in the same log.  Its [createMessageNode], [updateSelectedNode] and
    [deleteSelectedNode] read like the later ones. *)
Module Earlier.

Definition alert (msg : string) (st : AppState) : AppState := toast msg st.

Definition msgSave : string := "Save changes clicked - currently does nothing".

(** No guard on missing ids and no cycle check. *)
Definition onConnect (params : Connection) (st : AppState) : AppState :=
  if bool_decide (source params = target params) then alert msgSelfLoop st
  else if sourceHasEdge params (edges st) then alert msgHandleAlreadyConnected st
  else
    let newEdges := addEdge params (edges st) in
    setPersistedEdges newEdges (setEdges newEdges st).

Definition onNodeClick (node : Node.t) (st : AppState) : AppState :=
  setShowSettings true
    (setMessageText (message (Node.data node))
       (setSelectedNodeId (Some (Node.id node)) st)).

(** [clearAll]; [confirmed] is the answer to the [confirm] dialog. *)
Definition clearAll (confirmed : bool) (st : AppState) : AppState :=
  if confirmed then
    setMessageText ""
      (setShowSettings false
         (setSelectedNodeId None
            (setNodeIdCounter 1
               (setPersistedEdges []
                  (setPersistedNodes []
                     (setEdges [] (setNodes [] st)))))))
  else st.

Definition saveChanges (st : AppState) : AppState := alert msgSave st.

Inductive Event :=
  | Connect (params : Connection)
  | NodeClick (node : Node.t)
  | TypeMessage (text : string)
  | CreateNode (position : XYPosition)
  | UpdateNode
  | DeleteNode
  | ClearAll (confirmed : bool)
  | Save
  | Cancel
  | ToggleSettings.

Definition handle (ev : Event) (st : AppState) : AppState :=
  match ev with
  | Connect params => onConnect params st
  | NodeClick node => onNodeClick node st
  | TypeMessage text => setMessageText text st
  | CreateNode position => createMessageNode position st
  | UpdateNode => updateSelectedNode st
  | DeleteNode => deleteSelectedNode st
  | ClearAll confirmed => clearAll confirmed st
  | Save => saveChanges st
  | Cancel => cancelSettings st
  | ToggleSettings => toggleSettings st
  end.

Definition run (evs : list Event) (st : AppState) : AppState :=
  foldl (λ st ev, handle ev st) st evs.

Definition reachable (st : AppState) : Prop :=
  ∃ evs, st = run evs initialState.

End Earlier.

(** * Part II: the proofs *)

(** ** Correctness of the search *)

Section search.
Variable edges : list Edge.t.
Variable to : string.

Lemma forOutgoing_post body from es :
  (∀ e v b v', e ∈ es → to ∉ v → body e v = Some (b, v') →
     search_post edges to (Edge.target e) v b v') →
  (∀ e, e ∈ es → e ∈ edges ∧ Edge.source e = from) →
  ∀ visited b v', to ∉ visited →
    forOutgoing body es visited = Some (b, v') →
    visited ⊆ v' ∧ (to ∉ v') ∧
    (if b then path edges from to
     else (∀ e, e ∈ es → Edge.target e ∈ v') ∧
          ∀ a, a ∈ v' → a ∉ visited → ∀ c, edge_rel edges a c → c ∈ v').
Proof.
  induction es as [|e es IH]; intros Hbody Hes visited b v' Hto Hrun; simpl in Hrun.
  - injection Hrun as <- <-. split_and!; [done|done|set_solver|done].
  - destruct (body e visited) as [[[] v1]|] eqn:Hcall; [| |done].
    + injection Hrun as <- <-.
      destruct (Hbody e visited true v1) as (Hsub & Hnot & Hpath);
        [left|done|done|].
      split_and!; [done|done|].
      destruct (Hes e) as [Hin Hsrc]; [left|].
      eapply rtc_l; [|exact Hpath]. by exists e.
    + destruct (Hbody e visited false v1) as (Hsub & Hnot & Hin & Hclosed);
        [left|done|done|].
      destruct (IH) with (visited := v1) (b := b) (v' := v') as (Hsub' & Hnot' & Hrest);
        [intros; eapply Hbody; eauto; by right
        |intros; apply Hes; by right|done|done|].
      split_and!; [set_solver|done|].
      destruct b; [done|].
      destruct Hrest as [Htargets Hclosed'].
      split.
      * intros e' [->|He']%elem_of_cons; [set_solver|by apply Htargets].
      * intros a Ha Hfresh c Hac.
        destruct (decide (a ∈ v1)) as [Hav1|Hav1].
        -- apply Hsub'. by eapply Hclosed.
        -- by eapply Hclosed'.
Qed.

Lemma hasPath_post fuel : ∀ from visited b v',
  to ∉ visited →
  hasPath fuel edges from to visited = Some (b, v') →
  search_post edges to from visited b v'.
Proof.
  induction fuel as [|fuel IH]; intros from visited b v' Hto Hrun; [done|].
  simpl in Hrun.
  case_bool_decide as Heq.
  { injection Hrun as <- <-. subst. by split_and!. }
  case_bool_decide as Hvis.
  { injection Hrun as <- <-. split_and!; [done|done|done|]. intros; done. }
  apply forOutgoing_post with (from := from) in Hrun as (Hsub & Hnot & Hres).
  - split_and!; [set_solver|done|].
    destruct b; [done|].
    destruct Hres as [Htargets Hclosed].
    split; [set_solver|].
    intros a Ha Hfresh c Hac.
    destruct (decide (a = from)) as [->|Hne].
    + destruct Hac as (e & He & Hsrc & <-).
      apply Htargets. apply list_elem_of_In, filter_In.
      split; [by apply list_elem_of_In|by apply bool_decide_eq_true].
    + eapply Hclosed; [done|set_solver|done].
  - intros e v b0 v0 _ Hv Hcall. by eapply IH.
  - intros e [He Hsrc%bool_decide_eq_true]%list_elem_of_In%filter_In.
    split; [by apply list_elem_of_In|done].
  - set_solver.
Qed.

(** A set closed under the edges keeps every path inside. *)
Lemma closed_path (X : gset string) a b :
  (∀ c d, c ∈ X → edge_rel edges c d → d ∈ X) →
  path edges a b → a ∈ X → b ∈ X.
Proof. intros Hclosed Hpath. induction Hpath; eauto. Qed.

(** The result of a search that starts with nothing visited. *)
Lemma hasPath_correct fuel from b v' :
  hasPath fuel edges from to ∅ = Some (b, v') →
  b = true ↔ path edges from to.
Proof.
  intros Hrun. apply hasPath_post in Hrun as (_ & Hnot & Hres); [|set_solver].
  destruct b.
  - done.
  - destruct Hres as [Hin Hclosed]. split; [done|].
    intros Hpath. exfalso. apply Hnot.
    eapply closed_path; [|exact Hpath|exact Hin].
    intros c d Hc Hcd. eapply Hclosed; [done|set_solver|done].
Qed.

(** *** Termination *)

(** The depth of the recursion is bounded by the number of edge sources
    that are not visited yet: a call that goes on to its outgoing edges
    has just added such a source to [visited]. *)
Lemma forOutgoing_runs body (bound : nat) es :
  (∀ e v b v', body e v = Some (b, v') → v ⊆ v') →
  (∀ e v, size (sources edges ∖ v) < bound → is_Some (body e v)) →
  ∀ visited, size (sources edges ∖ visited) < bound →
    is_Some (forOutgoing body es visited).
Proof.
  intros Hmono Hbody. induction es as [|e es IH]; intros visited Hsize; simpl.
  - done.
  - destruct (Hbody e visited Hsize) as [[[] v1] Hcall]; rewrite Hcall; [done|].
    apply IH. apply Hmono in Hcall.
    eapply Nat.le_lt_trans; [|exact Hsize].
    apply subseteq_size. set_solver.
Qed.

Lemma forOutgoing_mono body es :
  (∀ e v b v', body e v = Some (b, v') → v ⊆ v') →
  ∀ visited b v', forOutgoing body es visited = Some (b, v') → visited ⊆ v'.
Proof.
  intros Hmono. induction es as [|e es IH]; intros visited b v' Hrun; simpl in Hrun.
  - by injection Hrun as <- <-.
  - destruct (body e visited) as [[[] v1]|] eqn:Hcall; [| |done].
    + injection Hrun as <- <-. by eapply Hmono.
    + etrans; [by eapply Hmono|by eapply IH].
Qed.

Lemma hasPath_mono fuel : ∀ from visited b v',
  hasPath fuel edges from to visited = Some (b, v') → visited ⊆ v'.
Proof.
  induction fuel as [|fuel IH]; intros from visited b v' Hrun; [done|].
  simpl in Hrun.
  case_bool_decide; [by injection Hrun as <- <-|].
  case_bool_decide; [by injection Hrun as <- <-|].
  apply forOutgoing_mono in Hrun; [set_solver|].
  intros e v b0 v0 Hcall. by eapply IH.
Qed.

Lemma hasPath_runs fuel : ∀ from visited,
  size (sources edges ∖ visited) < fuel →
  is_Some (hasPath fuel edges from to visited).
Proof.
  induction fuel as [|fuel IH]; intros from visited Hsize; [lia|].
  simpl.
  case_bool_decide; [done|].
  case_bool_decide as Hvis; [done|].
  destruct (List.filter (λ edge, bool_decide (Edge.source edge = from)) edges)
    as [|e es] eqn:Hout; [done|].
  assert (from ∈ sources edges) as Hsrc.
  { assert (In e (List.filter (λ edge, bool_decide (Edge.source edge = from)) edges))
      as [He Hfrom%bool_decide_eq_true]%filter_In by (rewrite Hout; by left).
    apply elem_of_list_to_set, list_elem_of_fmap. exists e.
    split; [done|by apply list_elem_of_In]. }
  apply forOutgoing_runs with (bound := fuel).
  - intros e' v b v' Hcall. by eapply hasPath_mono.
  - intros e' v Hv. by apply IH.
  - assert (sources edges ∖ (visited ∪ {[from]}) ⊂ sources edges ∖ visited)
      as Hlt%subset_size by set_solver.
    lia.
Qed.
End search.

Lemma size_sources edges : (size (sources edges) ≤ length edges)%nat.
Proof.
  unfold sources. induction edges as [|e edges IH].
  - done.
  - cbn [map list_to_set length]. rewrite size_union_alt, size_singleton.
    assert (list_to_set (map Edge.source edges) ∖ {[Edge.source e]}
              ⊆@{gset string} list_to_set (map Edge.source edges))
      as Hle%subseteq_size by set_solver.
    lia.
Qed.

(** The fuel that [wouldCreateCycle] passes is enough. *)
Lemma hasPath_enough_fuel edges from to :
  is_Some (hasPath (S (length edges)) edges from to ∅).
Proof.
  apply hasPath_runs.
  pose proof (size_sources edges).
  assert (sources edges ∖ ∅ ⊆ sources edges) as Hle%subseteq_size by set_solver.
  lia.
Qed.

Lemma wouldCreateCycle_path edges sourceId targetId :
  wouldCreateCycle edges sourceId targetId = true ↔ path edges targetId sourceId.
Proof.
  unfold wouldCreateCycle.
  destruct (hasPath_enough_fuel edges targetId sourceId) as [[b v] Hrun].
  rewrite Hrun. by eapply hasPath_correct.
Qed.

(** ** Acyclic edge sets *)

Lemma edge_rel_app edges e a b :
  edge_rel (edges ++ [e]) a b ↔
  edge_rel edges a b ∨ (Edge.source e = a ∧ Edge.target e = b).
Proof.
  unfold edge_rel. split.
  - intros (e' & [He'|He']%elem_of_app & Hsrc & Htgt); [left; eauto|].
    apply list_elem_of_singleton in He' as ->. by right.
  - intros [(e' & He' & Hsrc & Htgt)|[Hsrc Htgt]].
    + exists e'. split; [apply elem_of_app; by left|done].
    + exists e. split; [apply elem_of_app; right; by apply list_elem_of_singleton|done].
Qed.

Lemma acyclic_nil : acyclic [].
Proof.
  assert (∀ b c, ¬ edge_rel [] b c) as Hno.
  { intros b c (e & He & _). by apply not_elem_of_nil in He. }
  intros a Hcycle. destruct Hcycle as [b c Hstep|b c d Hstep _]; by eapply Hno.
Qed.

(** Fewer edges, fewer cycles. *)
Lemma acyclic_subset edges edges' :
  (∀ e, e ∈ edges' → e ∈ edges) → acyclic edges → acyclic edges'.
Proof.
  intros Hsub Hacyclic a Hcycle. apply (Hacyclic a).
  apply (tc_congruence (λ n, n) (edge_rel edges)) in Hcycle; [done|].
  intros b c (e & He & Hsrc & Htgt). exists e. split; [by apply Hsub|done].
Qed.

Lemma acyclic_filter (keep : Edge.t → bool) edges :
  acyclic edges → acyclic (List.filter keep edges).
Proof.
  apply acyclic_subset. intros e [He _]%list_elem_of_In%filter_In.
  by apply list_elem_of_In.
Qed.

(** With no path from the target back to the source, the new edge is on
    no path that starts at the target. *)
Lemma path_app_from_target edges e b :
  ¬ path edges (Edge.target e) (Edge.source e) →
  path (edges ++ [e]) (Edge.target e) b → path edges (Edge.target e) b.
Proof.
  intros Hno. unfold path in *. revert b.
  apply rtc_ind_r; [done|]. intros b c Hpath Hstep IH.
  apply edge_rel_app in Hstep as [Hstep|[<- <-]].
  - by eapply rtc_r.
  - done.
Qed.

(** A path of the extended edge set either is a path of the old one or
    goes through the new edge. *)
Lemma path1_app_split edges e a b :
  path1 (edges ++ [e]) a b →
  path1 edges a b ∨
  (path edges a (Edge.source e) ∧ path (edges ++ [e]) (Edge.target e) b).
Proof.
  unfold path1, path. intros Hpath.
  induction Hpath as [a b Hstep|a c b Hstep Hrest IH].
  - apply edge_rel_app in Hstep as [Hstep|[<- <-]].
    + left. by apply tc_once.
    + right. done.
  - apply edge_rel_app in Hstep as [Hstep|[<- <-]].
    + destruct IH as [IH|[IH1 IH2]].
      * left. by eapply tc_l.
      * right. split; [by eapply rtc_l|done].
    + right. split; [done|]. by apply tc_rtc.
Qed.

Lemma acyclic_add edges e :
  acyclic edges →
  ¬ path edges (Edge.target e) (Edge.source e) →
  acyclic (edges ++ [e]).
Proof.
  intros Hacyclic Hno a Hcycle.
  apply path1_app_split in Hcycle as [Hcycle|[Hto Hfrom]].
  - by apply (Hacyclic a).
  - apply Hno. apply path_app_from_target in Hfrom; [|done].
    unfold path in *. by etrans.
Qed.

(** ** Connecting *)

Lemma toast_same_graph msg st : same_graph st (toast msg st).
Proof. by repeat split. Qed.

Lemma toast_neq msg st : toast msg st ≠ st.
Proof.
  intros Heq. apply (f_equal toasts) in Heq. simpl in Heq.
  apply (f_equal length) in Heq. rewrite length_app in Heq. simpl in Heq. lia.
Qed.

Lemma toast_inj msg msg' st : toast msg st = toast msg' st → msg = msg'.
Proof.
  intros Heq. apply (f_equal toasts) in Heq. simpl in Heq.
  by apply app_inj_tail in Heq as [_ ?].
Qed.

Lemma truthy_false s : truthy s = false ↔ s = "".
Proof. unfold truthy. by rewrite negb_false_iff, bool_decide_eq_true. Qed.

Lemma truthy_true s : truthy s = true ↔ s ≠ "".
Proof. unfold truthy. by rewrite negb_true_iff, bool_decide_eq_false. Qed.

Lemma strictEq_true h h' : strictEq h h' = true ↔ h = h'.
Proof.
  destruct h, h'; simpl; try (split; done).
  rewrite bool_decide_eq_true. split; congruence.
Qed.

Lemma sourceHasEdge_true params edges :
  sourceHasEdge params edges = true ↔ handle_taken params edges.
Proof.
  unfold sourceHasEdge, handle_taken. rewrite existsb_exists. split.
  - intros (e & He & [Hs Hh]%andb_prop).
    exists e. apply bool_decide_eq_true in Hs. apply strictEq_true in Hh.
    by rewrite list_elem_of_In.
  - intros (e & He & Hs & Hh). exists e. split; [by apply list_elem_of_In|].
    apply andb_true_intro. by rewrite bool_decide_eq_true, strictEq_true.
Qed.

(** [addEdge] returns the edges as they are or appends the new edge. *)
Lemma addEdge_cases params edges :
  addEdge params edges = edges ∨ addEdge params edges = edges ++ [newEdge params].
Proof.
  unfold addEdge.
  destruct (negb (truthy (source params)) || negb (truthy (target params)));
    [by left|].
  simpl. destruct (connectionExists _ edges); [by left|by right].
Qed.

Lemma connectionExists_in_use params edges :
  connectionExists
    {| Edge.id := getEdgeId params;
       Edge.source := source params;
       Edge.sourceHandle := connectionHandle (sourceHandle params);
       Edge.target := target params;
       Edge.targetHandle := connectionHandle (targetHandle params) |} edges
    = true →
  handle_in_use params edges.
Proof.
  unfold connectionExists. rewrite existsb_exists.
  intros (el & Hel & [[[Hs _]%andb_prop Hh]%andb_prop _]%andb_prop).
  simpl in *. apply bool_decide_eq_true in Hs.
  exists el. split; [by apply list_elem_of_In|]. split; [done|].
  apply orb_prop in Hh as [Hh%strictEq_true|[Hl Hr]%andb_prop]; [by left|right].
  by rewrite negb_true_iff in Hl, Hr.
Qed.

(** With both endpoint ids present and no edge at the source handle, the
    new edge is appended. *)
Lemma addEdge_appends params edges :
  source params ≠ "" → target params ≠ "" →
  ¬ handle_in_use params edges →
  addEdge params edges = edges ++ [newEdge params].
Proof.
  intros Hs%truthy_true Ht%truthy_true Hfree. unfold addEdge.
  rewrite Hs, Ht. simpl.
  destruct (connectionExists _ edges) eqn:Hexists; [|done].
  by apply connectionExists_in_use in Hexists.
Qed.

Lemma connectionExists_endpoints edge edges :
  connectionExists edge edges = true →
  ∃ el, el ∈ edges ∧ Edge.source el = Edge.source edge ∧
        Edge.target el = Edge.target edge.
Proof.
  unfold connectionExists. rewrite existsb_exists.
  intros (el & Hel & [[[Hs Ht]%andb_prop _]%andb_prop _]%andb_prop).
  apply bool_decide_eq_true in Hs, Ht.
  exists el. by rewrite list_elem_of_In.
Qed.

(** When [addEdge] returns the edges as they are although both endpoint
    ids are present, an edge joins the two endpoints already. *)
Lemma addEdge_unchanged params edges :
  source params ≠ "" → target params ≠ "" →
  addEdge params edges = edges →
  ∃ el, el ∈ edges ∧ Edge.source el = source params ∧
        Edge.target el = target params.
Proof.
  intros Hs%truthy_true Ht%truthy_true. unfold addEdge. rewrite Hs, Ht. simpl.
  destruct (connectionExists _ edges) eqn:Hexists.
  - intros _. by apply connectionExists_endpoints in Hexists.
  - intros Heq. apply (f_equal length) in Heq.
    rewrite length_app in Heq. simpl in Heq. lia.
Qed.

(** The edge that [addEdge] appends is the connection it then finds
    present. *)
Lemma handle_stored h :
  strictEq (dropNull h) h
  || negb (truthy_handle (dropNull h)) && negb (truthy_handle h) = true.
Proof.
  destruct h as [| |name]; simpl; [done|done|].
  by rewrite bool_decide_eq_true_2.
Qed.

Lemma addEdge_idem params edges :
  addEdge params (addEdge params edges) = addEdge params edges.
Proof.
  unfold addEdge.
  destruct (negb (truthy (source params)) || negb (truthy (target params)))
    eqn:Hmissing; [done|].
  simpl. destruct (connectionExists _ edges) eqn:Hexists; [by rewrite Hexists|].
  unfold connectionExists at 1. rewrite existsb_app. simpl.
  rewrite !bool_decide_eq_true_2 by done. rewrite !handle_stored. simpl.
  by rewrite orb_true_r.
Qed.

Lemma handle_taken_in_use params edges :
  handle_taken params edges → handle_in_use params edges.
Proof. intros (e & He & Hs & Hh). exists e. split_and!; [done|done|by left]. Qed.

Lemma sourceHasEdge_false params edges :
  sourceHasEdge params edges = false ↔ ¬ handle_taken params edges.
Proof. rewrite <-sourceHasEdge_true. by destruct (sourceHasEdge params edges). Qed.

Lemma onConnect_cases params st : onConnect_outcome params st (onConnect params st).
Proof.
  unfold onConnect.
  destruct (truthy (source params)) eqn:Hs; simpl;
    [|apply outcome_missing; left; by apply truthy_false].
  destruct (truthy (target params)) eqn:Ht; simpl;
    [|apply outcome_missing; right; by apply truthy_false].
  apply truthy_true in Hs, Ht.
  case_bool_decide as Hne; [by apply outcome_self_loop|].
  destruct (sourceHasEdge params (edges st)) eqn:Htaken.
  { apply outcome_handle_taken; try done. by apply sourceHasEdge_true. }
  apply sourceHasEdge_false in Htaken.
  destruct (wouldCreateCycle _ _ _) eqn:Hcycle.
  - apply outcome_cycle; try done. by apply wouldCreateCycle_path.
  - apply outcome_accept; try done.
    rewrite <-wouldCreateCycle_path. by rewrite Hcycle.
Qed.

Lemma onConnect_edges params st :
  edges (onConnect params st) = edges st ∨
  (edges (onConnect params st) = edges st ++ [newEdge params] ∧
   source params ≠ "" ∧ target params ≠ "" ∧
   source params ≠ target params ∧
   ¬ handle_taken params (edges st) ∧
   ¬ path (edges st) (target params) (source params)).
Proof.
  destruct (onConnect_cases params st); auto. simpl.
  destruct (addEdge_cases params (edges st)) as [->| ->]; auto 10.
Qed.

(** ** What one event does to the graph *)

Lemma filter_all {A} (l : list A) : List.filter (λ _, true) l = l.
Proof. induction l; simpl; congruence. Qed.

Lemma filter_id_all {A} (keep : A → bool) (l : list A) :
  (∀ a, a ∈ l → keep a = true) → List.filter keep l = l.
Proof.
  induction l as [|a l IH]; intros Hall; simpl; [done|].
  rewrite (Hall a) by left. f_equal. apply IH. intros b Hb. apply Hall. by right.
Qed.

Lemma filter_none {A} (l : list A) : List.filter (λ _, false) l = [].
Proof. induction l; simpl; congruence. Qed.

(** An event keeps the edges, removes some of them, or appends one edge
    that passed the checks of [onConnect]. *)
Lemma handle_edges ev st :
  (∃ keep, edges (handle ev st) = List.filter keep (edges st)) ∨
  (∃ params,
     edges (handle ev st) = edges st ++ [newEdge params] ∧
     source params ≠ "" ∧ target params ≠ "" ∧
     source params ≠ target params ∧
     ¬ handle_taken params (edges st) ∧
     ¬ path (edges st) (target params) (source params)).
Proof.
  assert (∃ keep, edges st = List.filter keep (edges st)) as Hsame.
  { exists (λ _, true). by rewrite filter_all. }
  destruct ev; simpl; try (left; exact Hsame).
  - destruct (onConnect_edges params st) as [->|(-> & ?)]; [by left|right; eauto].
  - left. unfold deleteSelectedEdge.
    destruct (negb (truthy_opt (selectedEdgeId st))); [done|]. simpl. eauto.
  - left. unfold createMessageNode.
    by destruct (negb (truthy (trim (messageText st)))).
  - left. unfold updateSelectedNode.
    by destruct (negb (truthy_opt (selectedNodeId st))
                 || negb (truthy (trim (messageText st)))).
  - left. unfold deleteSelectedNode.
    destruct (negb (truthy_opt (selectedNodeId st))); [done|]. simpl. eauto.
  - left. exists (λ _, false). simpl. by rewrite filter_none.
  - left. unfold saveChanges.
    by destruct (negb (areAllNodesConnected (nodes st) (edges st))).
Qed.

(** An event keeps the node ids, removes some nodes, appends one node
    whose id is the allocator's next value, or resets to the default. *)
Lemma handle_nodes ev st :
  (∃ keep, map Node.id (nodes (handle ev st))
           = map Node.id (List.filter keep (nodes st)) ∧
           nodeIdCounter (handle ev st) = nodeIdCounter st) ∨
  (∃ node, nodes (handle ev st) = nodes st ++ [node] ∧
           Node.id node = pretty (nodeIdCounter st) ∧
           nodeIdCounter (handle ev st) = (nodeIdCounter st + 1)%N) ∨
  (ev = ClearAll ∧ nodes (handle ev st) = defaultNodes ∧
   nodeIdCounter (handle ev st) = 2%N).
Proof.
  assert (∃ keep, map Node.id (nodes st) = map Node.id (List.filter keep (nodes st))
                  ∧ nodeIdCounter st = nodeIdCounter st) as Hsame.
  { exists (λ _, true). by rewrite filter_all. }
  destruct ev; simpl; try (left; exact Hsame).
  - left. destruct (onConnect_cases params st); exact Hsame.
  - left. unfold deleteSelectedEdge.
    by destruct (negb (truthy_opt (selectedEdgeId st))).
  - unfold createMessageNode.
    destruct (negb (truthy (trim (messageText st)))); [by left|].
    right; left. simpl. eauto.
  - left. unfold updateSelectedNode.
    destruct (negb (truthy_opt (selectedNodeId st))
              || negb (truthy (trim (messageText st)))); [done|].
    simpl. exists (λ _, true). rewrite filter_all, map_map. split; [|done].
    apply map_ext. intros node. by case_bool_decide.
  - left. unfold deleteSelectedNode.
    destruct (negb (truthy_opt (selectedNodeId st))); [done|]. simpl. eauto.
  - right; right. done.
  - left. unfold saveChanges.
    by destruct (negb (areAllNodesConnected (nodes st) (edges st))).
Qed.

(** An invariant of the events holds in every state they lead to. *)
Lemma run_invariant (P : AppState → Prop) :
  (∀ ev st, P st → P (handle ev st)) →
  ∀ evs st, P st → P (run evs st).
Proof.
  intros Hstep evs. induction evs as [|ev evs IH]; intros st HP; [done|].
  apply IH. by apply Hstep.
Qed.

Lemma reachable_invariant (P : AppState → Prop) :
  P initialState →
  (∀ ev st, P st → P (handle ev st)) →
  ∀ st, reachable st → P st.
Proof. intros Hinit Hstep st [evs ->]. by apply run_invariant. Qed.

(** *** Acyclicity *)

Lemma handle_acyclic ev st : acyclic (edges st) → acyclic (edges (handle ev st)).
Proof.
  intros Hacyclic.
  destruct (handle_edges ev st)
    as [[keep ->]|(params & -> & _ & _ & _ & _ & Hno)].
  - by apply acyclic_filter.
  - by apply acyclic_add.
Qed.

(** The decimal form of a number is never empty. *)
Lemma pretty_N_go_nonempty n s : s ≠ "" → pretty_N_go n s ≠ "".
Proof.
  revert s. induction (N.lt_wf_0 n) as [n _ IH]; intros s Hs.
  destruct (decide (n = 0%N)) as [->|Hpos]; [by rewrite pretty_N_go_0|].
  rewrite pretty_N_go_step by lia.
  apply IH; [apply N.div_lt; lia|done].
Qed.

Lemma pretty_N_nonempty (n : N) : pretty n ≠ "".
Proof.
  unfold pretty, pretty_N. case_decide; [done|].
  rewrite pretty_N_go_step by lia. by apply pretty_N_go_nonempty.
Qed.

Lemma run_app evs evs' st : run (evs ++ evs') st = run evs' (run evs st).
Proof. unfold run. by rewrite foldl_app. Qed.

(** No edge that the events lead to holds a [null] handle: [addEdge]
    stores none. *)
Lemma stored_handles_not_null evs e :
  e ∈ edges (run evs initialState) → Edge.sourceHandle e ≠ Handle.null.
Proof.
  revert e.
  apply (run_invariant
           (λ st, ∀ e, e ∈ edges st → Edge.sourceHandle e ≠ Handle.null)).
  - intros ev st Hinv e He.
    destruct (handle_edges ev st) as [[keep Heq]|(params & Heq & _)];
      rewrite Heq in He.
    + apply list_elem_of_In, filter_In in He as [He _].
      by apply Hinv, list_elem_of_In.
    + apply elem_of_app in He as [He| ->%list_elem_of_singleton];
        [by apply Hinv|].
      simpl. by destruct (connectionHandle (sourceHandle params)).
  - intros e He. by apply not_elem_of_nil in He.
Qed.

(** So the test of [sourceHasEdge] fails for every connection that is
    drawn from a handle without id. *)
Lemma id_less_handle_free evs s t :
  ¬ handle_taken (conn s t) (edges (run evs initialState)).
Proof.
  intros (e & He & _ & Hnull). by apply stored_handles_not_null in He.
Qed.

(** A connection that was accepted and is drawn again, with the test of
    [sourceHasEdge] failing again, passes the cycle check, and [addEdge]
    finds it present: the state stays as it is. *)
Lemma onConnect_again params st :
  edges (onConnect params st) ≠ edges st →
  ¬ handle_taken params (edges (onConnect params st)) →
  onConnect params (onConnect params st) = onConnect params st.
Proof.
  intros Hadded Hfree.
  destruct (onConnect_cases params st) as [| | | |Hs Ht Hne _ Hno];
    try done.
  simpl in Hadded, Hfree.
  assert (wouldCreateCycle (addEdge params (edges st)) (source params)
            (target params) = false) as Hcycle.
  { destruct (wouldCreateCycle _ _ _) eqn:Hcycle; [|done]. exfalso.
    apply wouldCreateCycle_path in Hcycle.
    destruct (addEdge_cases params (edges st)) as [Heq|Heq]; [done|].
    rewrite Heq in Hcycle. apply Hno.
    by apply (path_app_from_target _ (newEdge params)). }
  apply sourceHasEdge_false in Hfree. apply truthy_true in Hs, Ht.
  unfold onConnect. simpl. rewrite Hs, Ht. simpl.
  rewrite bool_decide_eq_false_2 by done.
  rewrite Hfree, Hcycle. by rewrite addEdge_idem.
Qed.

(** ** The sample states *)

Example chain_nodes : map Node.id (nodes chain) = ["1"; "2"; "3"].
Proof. reflexivity. Qed.

Example chain_edges :
  map (λ e, (Edge.source e, Edge.target e)) (edges chain) = [("1", "2"); ("2", "3")].
Proof. vm_compute. reflexivity. Qed.

Example chain_closing_edge_rejected :
  onConnect (conn "3" "1") chain = toast msgWouldCreateCycle chain.
Proof. vm_compute. reflexivity. Qed.

Example diamond_search :
  hasPath 5 diamond "1" "5" ∅ = Some (false, {["1"; "2"; "3"; "4"]}).
Proof. vm_compute. reflexivity. Qed.

(** A single node and no edges: the flow counts as connected and the
    save goes through. *)
Example save_single_node : saveChanges initialState = toast msgSaved initialState.
Proof. vm_compute. reflexivity. Qed.

(** Two nodes and no edge between them: the save is blocked. *)
Example save_two_loose_nodes :
  saveChanges (run [TypeMessage "a"; CreateNode somewhere] initialState)
  = toast msgSaveBlocked (run [TypeMessage "a"; CreateNode somewhere] initialState).
Proof. vm_compute. reflexivity. Qed.

(** In the chain the connection from 2 back to 1 would close a cycle. *)
Example chain_back_edge_rejected :
  onConnect (conn "2" "1") chain = toast msgWouldCreateCycle chain.
Proof. vm_compute. reflexivity. Qed.

(** Between handles that have an id the handle check fires: with an edge
    from the handle [out] of node 1 in place, a second connection from
    that handle is rejected. *)
Example named_handle_second_edge_rejected :
  let st :=
    run [ TypeMessage "a"; CreateNode somewhere;
          TypeMessage "b"; CreateNode somewhere;
          Connect {| source := "1"; sourceHandle := Some "out";
                     target := "2"; targetHandle := None |} ] initialState in
  length (edges st) = 1 ∧
  onConnect {| source := "1"; sourceHandle := Some "out";
               target := "3"; targetHandle := None |} st
  = toast msgHandleAlreadyConnected st.
Proof. split; vm_compute; reflexivity. Qed.

(** Deleting node 2 of the chain leaves nodes 1 and 3 and no edge. *)
Example delete_middle_of_chain :
  map Node.id (nodes (deleteSelectedNode chain_selected)) = ["1"; "3"] ∧
  edges (deleteSelectedNode chain_selected) = [].
Proof. split; vm_compute; reflexivity. Qed.

(** ** Connecting: the invariants and the checks *)

(** Closes the cases of [onConnect_cases] that contradict the checks at
    hand, or whose state cannot be the one claimed. *)
Ltac absurd_outcome :=
  match goal with
  | H : _ ∨ _ |- _ => destruct H; congruence
  | H : toast _ ?st = ?st |- _ => by apply toast_neq in H
  | H : ?st = toast _ ?st |- _ => symmetry in H; by apply toast_neq in H
  | H : toast _ ?st = toast _ ?st |- _ => by apply toast_inj in H
  | H : setPersistedEdges _ (setEdges _ ?st) = toast _ ?st |- _ =>
      apply (f_equal toasts), (f_equal length) in H; simpl in H;
      rewrite length_app in H; simpl in H; lia
  | _ => congruence
  | _ => done
  end.

(** C1. Acyclicity is an invariant: from a state whose edge set is
    acyclic, no sequence of events leads to an edge set with a directed
    cycle.  The events include the connect calls, accepted or not, so in
    particular every sequence of accepted connect calls keeps the edge set
    acyclic, after each of its calls. *)
Theorem connect_keeps_acyclic (st : AppState) (evs : list Event) :
  acyclic (edges st) → acyclic (edges (run evs st)).
Proof.
  apply (run_invariant (λ st, acyclic (edges st))).
  intros ev st'. apply handle_acyclic.
Qed.

Lemma connect_keeps_acyclic_witness :
  acyclic (edges initialState) ∧ acyclic (edges (run chain_events initialState)).
Proof.
  split.
  - apply acyclic_nil.
  - apply (connect_keeps_acyclic initialState chain_events). apply acyclic_nil.
Defined.

(** C2, as the code has it.  [onConnect] makes its checks in this order,
    and stops at the first that fails: a missing (empty) endpoint id, with
    no message; equal endpoints; an edge that leaves the source with a
    handle value identical to the connection's; and, when no edge leaves
    that source handle at all, a path from the target back to the source.
    Whether the endpoint ids name nodes of the graph is not checked.  A
    connection that passes, with no edge at its source handle, is
    appended, and a rejection leaves the graph as it was. *)
Theorem onConnect_checks_in_order (st : AppState) (params : Connection) :
  (source params = "" ∨ target params = "" → onConnect params st = st) ∧
  (source params ≠ "" → target params ≠ "" →
   source params = target params →
   onConnect params st = toast msgSelfLoop st) ∧
  (source params ≠ "" → target params ≠ "" →
   source params ≠ target params →
   handle_taken params (edges st) →
   onConnect params st = toast msgHandleAlreadyConnected st) ∧
  (source params ≠ "" → target params ≠ "" →
   source params ≠ target params →
   ¬ handle_in_use params (edges st) →
   path (edges st) (target params) (source params) →
   onConnect params st = toast msgWouldCreateCycle st) ∧
  (source params ≠ "" → target params ≠ "" →
   source params ≠ target params →
   ¬ handle_in_use params (edges st) →
   ¬ path (edges st) (target params) (source params) →
   edges (onConnect params st) = edges st ++ [newEdge params] ∧
   persistedEdges (onConnect params st) = edges st ++ [newEdge params] ∧
   nodes (onConnect params st) = nodes st ∧
   toasts (onConnect params st) = toasts st) ∧
  (∀ msg, same_graph st (toast msg st)).
Proof.
  assert (¬ handle_in_use params (edges st) → ¬ handle_taken params (edges st))
    as Hfree by (intros Hno ?%handle_taken_in_use; done).
  split_and!; [..|intros msg; apply toast_same_graph]; intros;
    try match goal with
        | H : ¬ handle_in_use _ _ |- _ => pose proof (Hfree H)
        end;
    destruct (onConnect_cases params st); try absurd_outcome.
  simpl. by rewrite addEdge_appends.
Qed.

(** C2, as stated, fails: node 7 does not exist, and the connection from
    node 1 to it is accepted. *)
Lemma unknown_endpoint_accepted :
  ("7" ∉ map Node.id (nodes initialState)) ∧
  edges (onConnect (conn "1" "7") initialState)
    = addEdge (conn "1" "7") (edges initialState) ∧
  edges (onConnect (conn "1" "7") initialState) ≠ edges initialState.
Proof.
  split_and!.
  - simpl. by intros ?%list_elem_of_singleton.
  - vm_compute. reflexivity.
  - vm_compute. discriminate.
Qed.

(** C3, as the code has it.  [wouldCreateCycle] answers [true] exactly
    when the edges present before the connection hold a path of zero or
    more edges from the target to the source.  [onConnect] rejects with
    the cycle message exactly when there is such a path and no earlier
    check has rejected the connection. *)
Theorem wouldCreateCycle_iff_path (st : AppState) (params : Connection) :
  (wouldCreateCycle (edges st) (source params) (target params) = true ↔
   path (edges st) (target params) (source params)) ∧
  (onConnect params st = toast msgWouldCreateCycle st ↔
   source params ≠ "" ∧ target params ≠ "" ∧
   source params ≠ target params ∧
   ¬ handle_taken params (edges st) ∧
   path (edges st) (target params) (source params)).
Proof.
  split; [apply wouldCreateCycle_path|]. split.
  - intros Hout. destruct (onConnect_cases params st); absurd_outcome.
  - intros (? & ? & ? & ? & ?).
    destruct (onConnect_cases params st); absurd_outcome.
Qed.

(** C3, as stated, fails when the source and the target are the same
    node: the path of zero edges from node 1 to itself exists and
    [wouldCreateCycle] answers [true], yet the connection is rejected as a
    self-loop, which is checked first, and not with the cycle message. *)
Lemma cycle_rejection_not_exact :
  path (edges initialState) "1" "1" ∧
  wouldCreateCycle (edges initialState) "1" "1" = true ∧
  onConnect (conn "1" "1") initialState = toast msgSelfLoop initialState ∧
  onConnect (conn "1" "1") initialState ≠ toast msgWouldCreateCycle initialState.
Proof.
  split_and!.
  - apply rtc_refl.
  - vm_compute. reflexivity.
  - vm_compute. reflexivity.
  - vm_compute. discriminate.
Qed.

(** C6: the code does not keep the fan-out rule.  A [null] handle is
    stored as no handle, and [sourceHasEdge] compares with [===], so for a
    connection drawn from a handle without id the test is false in every
    state the events lead to.  With 1 → 2 in place the connection 1 → 3
    from the same handle is appended without a message, and two edges
    leave the one source handle of node 1. *)
Theorem handle_check_misses_id_less_handles :
  (∀ evs s t,
     sourceHasEdge (conn s t) (edges (run evs initialState)) = false) ∧
  map (λ e, (Edge.source e, Edge.sourceHandle e, Edge.target e)) (edges fork)
    = [("1", Handle.undefined, "2"); ("1", Handle.undefined, "3")] ∧
  toasts fork = [] ∧
  fan_out (edges fork) "1" Handle.undefined = 2.
Proof.
  split_and!; [|vm_compute; reflexivity..].
  intros evs s t. apply sourceHasEdge_false, id_less_handle_free.
Qed.

(** C9. The search of [wouldCreateCycle] terminates on every edge list
    and every pair of ids: the depth of the recursion stays below the
    number of edges plus one, which is the bound the model passes.  The
    reason is the visited set: it only grows, a call on a visited node
    returns at once without expanding it, and so the recursion is no
    deeper than the number of edge sources not yet visited. *)
Theorem wouldCreateCycle_terminates (edges : list Edge.t) (sourceId targetId : string) :
  (∃ found visited,
     hasPath (S (length edges)) edges targetId sourceId ∅ = Some (found, visited)) ∧
  (∀ fuel from visited found visited',
     hasPath fuel edges from sourceId visited = Some (found, visited') →
     visited ⊆ visited') ∧
  (∀ fuel from visited,
     from ≠ sourceId → from ∈ visited →
     hasPath (S fuel) edges from sourceId visited = Some (false, visited)) ∧
  (∀ fuel from visited,
     size (sources edges ∖ visited) < fuel →
     is_Some (hasPath fuel edges from sourceId visited)).
Proof.
  split_and!.
  - destruct (hasPath_enough_fuel edges targetId sourceId) as [[found visited] Hrun].
    eauto.
  - intros fuel from visited found visited'. apply hasPath_mono.
  - intros fuel from visited Hne Hvis. simpl.
    rewrite bool_decide_eq_false_2 by done.
    by rewrite bool_decide_eq_true_2.
  - intros fuel from visited. apply hasPath_runs.
Qed.

(** ** Saving *)

Lemma elem_of_connectedNodeIds_from (acc : gset string) edges i :
  i ∈ foldl (λ ids edge, ids ∪ {[Edge.source edge]} ∪ {[Edge.target edge]}) acc edges ↔
  i ∈ acc ∨ ∃ edge, edge ∈ edges ∧ (Edge.source edge = i ∨ Edge.target edge = i).
Proof.
  revert acc. induction edges as [|e edges IH]; intros acc; simpl.
  - split; [by left|]. intros [?|(e & He & _)]; [done|].
    by apply not_elem_of_nil in He.
  - rewrite IH. split.
    + intros [[[?| ->%elem_of_singleton]%elem_of_union
              | ->%elem_of_singleton]%elem_of_union
             |(e' & He' & Hi)].
      * by left.
      * right. exists e. split; [left|by left].
      * right. exists e. split; [left|by right].
      * right. exists e'. split; [by right|done].
    + intros [?|(e' & [->|He']%elem_of_cons & Hi)].
      * left. set_solver.
      * left. destruct Hi as [<-|<-]; set_solver.
      * right. eauto.
Qed.

Lemma elem_of_connectedNodeIds edges i :
  i ∈ connectedNodeIds edges ↔
  ∃ edge, edge ∈ edges ∧ (Edge.source edge = i ∨ Edge.target edge = i).
Proof.
  unfold connectedNodeIds. rewrite elem_of_connectedNodeIds_from. set_solver.
Qed.

(** C5. [areAllNodesConnected] answers [true] exactly when there is at
    most one node, or every node id is the source or the target of some
    edge.  It reads the nodes and the edges and yields only its answer. *)
Theorem areAllNodesConnected_iff (nodes : list Node.t) (edges : list Edge.t) :
  areAllNodesConnected nodes edges = true ↔
  length nodes ≤ 1 ∨
  ∀ node, node ∈ nodes →
    ∃ edge, edge ∈ edges ∧
      (Edge.source edge = Node.id node ∨ Edge.target edge = Node.id node).
Proof.
  unfold areAllNodesConnected. case_bool_decide as Hlen.
  - split; [by left|done].
  - rewrite forallb_forall. split.
    + intros Hall. right. intros node Hnode.
      apply elem_of_connectedNodeIds.
      eapply bool_decide_eq_true_1, Hall. by apply list_elem_of_In.
    + intros [?|Hall] node Hnode; [lia|].
      apply bool_decide_eq_true_2, elem_of_connectedNodeIds, Hall.
      by apply list_elem_of_In.
Qed.

(** C4. [saveChanges] reports success exactly when
    [areAllNodesConnected] holds of the current nodes and edges, and
    otherwise reports that the save is blocked; either way the nodes, the
    edges and the allocator are as before. *)
Theorem save_gate (st : AppState) :
  (saveChanges st = toast msgSaved st ↔
   areAllNodesConnected (nodes st) (edges st) = true) ∧
  (saveChanges st = toast msgSaveBlocked st ↔
   areAllNodesConnected (nodes st) (edges st) = false) ∧
  same_graph st (saveChanges st).
Proof.
  unfold saveChanges.
  destruct (areAllNodesConnected (nodes st) (edges st)); simpl.
  - split_and!; [done| |apply toast_same_graph].
    split; [by intros ?%toast_inj|done].
  - split_and!; [|done|apply toast_same_graph].
    split; [by intros ?%toast_inj|done].
Qed.

(** C10. [saveChanges] changes nothing but the messages: whatever the
    outcome, the nodes, the edges, their persisted copies, the allocator,
    the selection and the settings panel are as before, and exactly one
    message is emitted. *)
Theorem saveChanges_frame (st : AppState) :
  nodes (saveChanges st) = nodes st ∧
  edges (saveChanges st) = edges st ∧
  persistedNodes (saveChanges st) = persistedNodes st ∧
  persistedEdges (saveChanges st) = persistedEdges st ∧
  nodeIdCounter (saveChanges st) = nodeIdCounter st ∧
  selectedNodeId (saveChanges st) = selectedNodeId st ∧
  selectedEdgeId (saveChanges st) = selectedEdgeId st ∧
  messageText (saveChanges st) = messageText st ∧
  showSettings (saveChanges st) = showSettings st ∧
  ∃ msg, (msg = msgSaved ∨ msg = msgSaveBlocked) ∧
         toasts (saveChanges st) = toasts st ++ [msg].
Proof.
  unfold saveChanges.
  destruct (areAllNodesConnected (nodes st) (edges st)); simpl;
    split_and!; eauto.
Qed.

(** ** Node ids *)

Lemma elem_of_map_filter {A B} (f : A → B) keep (l : list A) b :
  b ∈ map f (List.filter keep l) → b ∈ map f l.
Proof.
  intros (a & -> & [Ha _]%list_elem_of_In%filter_In)%list_elem_of_fmap.
  apply list_elem_of_fmap. exists a. by rewrite list_elem_of_In.
Qed.

Lemma NoDup_map_filter {A B} (f : A → B) keep (l : list A) :
  NoDup (map f l) → NoDup (map f (List.filter keep l)).
Proof.
  induction l as [|a l IH]; simpl; [done|].
  intros [Hnot Hrest]%NoDup_cons. destruct (keep a); simpl; [|by apply IH].
  apply NoDup_cons. split; [|by apply IH].
  intros Hin. apply Hnot. by eapply elem_of_map_filter.
Qed.

Lemma allocated_fresh st :
  allocated st → pretty (nodeIdCounter st) ∉ map Node.id (nodes st).
Proof.
  intros [_ Hbelow] (k & Hlt & Heq%(inj pretty))%Hbelow. lia.
Qed.

Lemma initial_allocated : allocated initialState.
Proof.
  split; simpl.
  - apply NoDup_singleton.
  - intros i ->%list_elem_of_singleton. exists 1%N. split; [lia|done].
Qed.

Lemma handle_allocated ev st : allocated st → allocated (handle ev st).
Proof.
  intros Halloc. pose proof (allocated_fresh st Halloc) as Hfresh.
  destruct Halloc as [Hdup Hbelow].
  destruct (handle_nodes ev st)
    as [(keep & Hids & Hctr)|[(node & Hnodes & Hid & Hctr)|(_ & Hnodes & Hctr)]];
    unfold allocated.
  - rewrite Hids, Hctr. split; [by apply NoDup_map_filter|].
    intros i Hi. apply Hbelow. by eapply elem_of_map_filter.
  - rewrite Hnodes, Hctr, map_app. simpl. rewrite Hid. split.
    + apply NoDup_app. split_and!; [done| |apply NoDup_singleton].
      intros i Hi ->%list_elem_of_singleton. done.
    + intros i [Hi| ->%list_elem_of_singleton]%elem_of_app.
      * destruct (Hbelow i Hi) as (k & ? & ->). exists k. split; [lia|done].
      * exists (nodeIdCounter st). split; [lia|done].
  - rewrite Hnodes, Hctr. apply initial_allocated.
Qed.

Lemma reachable_allocated st : reachable st → allocated st.
Proof. apply reachable_invariant; [apply initial_allocated|apply handle_allocated]. Qed.

(** ** Deleting a node *)

Lemma length_filter_unique {A} (f : A → string) (l : list A) (X : string) :
  NoDup (map f l) → X ∈ map f l →
  length (List.filter (λ a, bool_decide (Some (f a) ≠ Some X)) l) + 1 = length l.
Proof.
  induction l as [|a l IH]; simpl.
  - by intros _ ?%not_elem_of_nil.
  - intros [Hnot Hdup]%NoDup_cons Hin.
    case_bool_decide as Hne; simpl.
    + rewrite IH; [done|done|].
      apply elem_of_cons in Hin as [->|Hin]; [congruence|done].
    + assert (f a = X) as <- by (destruct (decide (f a = X)); congruence).
      rewrite Nat.add_1_r. f_equal.
      clear IH Hin Hne Hdup. induction l as [|b l IH]; simpl; [done|].
      apply not_elem_of_cons in Hnot as [Hab Hnot].
      rewrite bool_decide_eq_true_2 by congruence. simpl. by rewrite IH.
Qed.

Lemma length_filter_incident edges X :
  length (List.filter
            (λ edge, bool_decide (Some (Edge.source edge) ≠ Some X)
                     && bool_decide (Some (Edge.target edge) ≠ Some X))
            edges)
  + incident edges X = length edges.
Proof.
  unfold incident. induction edges as [|e edges IH]; simpl; [done|].
  repeat case_bool_decide; simpl; try lia; congruence.
Qed.

(** C7. Deleting the selected node [X] of a reachable state removes the
    node with id [X] and the edges that start or end at [X], and nothing
    else, in one step that also updates the persisted copies: one node
    fewer, and as many edges fewer as were incident to [X]. *)
Theorem deleteSelectedNode_cascade (st : AppState) (X : string) :
  reachable st →
  selectedNodeId st = Some X →
  X ∈ map Node.id (nodes st) →
  (∀ node, node ∈ nodes (deleteSelectedNode st) ↔
           node ∈ nodes st ∧ Node.id node ≠ X) ∧
  (∀ edge, edge ∈ edges (deleteSelectedNode st) ↔
           edge ∈ edges st ∧ Edge.source edge ≠ X ∧ Edge.target edge ≠ X) ∧
  length (nodes (deleteSelectedNode st)) + 1 = length (nodes st) ∧
  length (edges (deleteSelectedNode st)) + incident (edges st) X
    = length (edges st) ∧
  persistedNodes (deleteSelectedNode st) = nodes (deleteSelectedNode st) ∧
  persistedEdges (deleteSelectedNode st) = edges (deleteSelectedNode st) ∧
  nodeIdCounter (deleteSelectedNode st) = nodeIdCounter st.
Proof.
  intros [Hdup Hbelow]%reachable_allocated Hsel HX.
  assert (X ≠ "") as Hne.
  { destruct (Hbelow X HX) as (k & _ & ->). apply pretty_N_nonempty. }
  unfold deleteSelectedNode. rewrite Hsel. simpl.
  apply truthy_true in Hne. rewrite Hne. simpl.
  split_and!; try done.
  - intros node. rewrite list_elem_of_In, filter_In, <-list_elem_of_In.
    rewrite bool_decide_eq_true. split; intros [? ?]; split; congruence.
  - intros edge. rewrite list_elem_of_In, filter_In, <-list_elem_of_In.
    rewrite andb_true_iff, !bool_decide_eq_true.
    split; [intros (? & ? & ?)|intros (? & ? & ?)]; split_and!; congruence.
  - by apply length_filter_unique.
  - apply length_filter_incident.
Qed.

Lemma deleteSelectedNode_cascade_witness :
  reachable chain_selected ∧
  selectedNodeId chain_selected = Some "2" ∧
  "2" ∈ map Node.id (nodes chain_selected) ∧
  length (nodes (deleteSelectedNode chain_selected)) + 1
    = length (nodes chain_selected) ∧
  length (edges (deleteSelectedNode chain_selected))
    + incident (edges chain_selected) "2"
    = length (edges chain_selected).
Proof.
  assert (reachable chain_selected) as Hreach by (by eexists).
  assert (selectedNodeId chain_selected = Some "2") as Hsel by reflexivity.
  assert ("2" ∈ map Node.id (nodes chain_selected)) as Hin.
  { apply list_elem_of_In. vm_compute. auto. }
  destruct (deleteSelectedNode_cascade chain_selected "2" Hreach Hsel Hin)
    as (_ & _ & Hnodes & Hedges & _).
  split_and!; [exact Hreach|exact Hsel|exact Hin|exact Hnodes|exact Hedges].
Defined.

(** ** Issued ids *)

Lemma filter_nil_iff {A} (keep : A → bool) (l : list A) :
  (∀ a, a ∈ l → keep a = false) → List.filter keep l = [].
Proof.
  induction l as [|a l IH]; intros Hall; simpl; [done|].
  rewrite (Hall a) by left. apply IH. intros b Hb. apply Hall. by right.
Qed.

(** Without a reset, the ids that come in are allocator values from the
    current one on, each once. *)
Lemma issued_from_allocator evs : ∀ st,
  allocated st → ClearAll ∉ evs →
  NoDup (issued evs st) ∧
  ∀ i, i ∈ issued evs st → ∃ k : N, (nodeIdCounter st ≤ k)%N ∧ i = pretty k.
Proof.
  induction evs as [|ev evs IH]; intros st Halloc Hclear; simpl.
  { split; [apply NoDup_nil_2|]. by intros i ?%not_elem_of_nil. }
  apply not_elem_of_cons in Hclear as [Hev Hclear].
  destruct (IH (handle ev st)) as [Hdup Hfrom];
    [by apply handle_allocated|done|].
  pose proof (allocated_fresh st Halloc) as Hfresh.
  unfold newIds.
  destruct (handle_nodes ev st)
    as [(keep & Hids & Hctr)|[(node & Hnodes & Hid & Hctr)|(? & _)]]; [| |done].
  - rewrite Hids, filter_nil_iff; simpl.
    + split; [done|]. intros i Hi. rewrite <-Hctr. by apply Hfrom.
    + intros i Hi%elem_of_map_filter. by apply bool_decide_eq_false_2; intros ?.
  - rewrite Hnodes, map_app, List.filter_app, filter_nil_iff; simpl.
    2:{ intros i Hi. by apply bool_decide_eq_false_2; intros ?. }
    rewrite Hid, bool_decide_eq_true_2 by done. simpl. split.
    + apply NoDup_cons. split; [|done].
      intros (k & Hk & Heq%(inj pretty))%Hfrom. lia.
    + intros i [->|Hi]%elem_of_cons.
      * exists (nodeIdCounter st). split; [lia|done].
      * destruct (Hfrom i Hi) as (k & Hk & ->). exists k. split; [lia|done].
Qed.

(** C8, as the code has it.  In every reachable state no two nodes share
    an id, and as long as there is no reset the ids that later events
    bring in differ from the ids present and from one another; a reset
    starts the allocation over.  The allocator's next value never
    decreases, except that a reset puts it back to 2. *)
Theorem ids_unique_allocator_monotone (st : AppState) :
  reachable st →
  NoDup (map Node.id (nodes st)) ∧
  (∀ evs, ClearAll ∉ evs → NoDup (map Node.id (nodes st) ++ issued evs st)) ∧
  (∀ ev, ev ≠ ClearAll → (nodeIdCounter st ≤ nodeIdCounter (handle ev st))%N) ∧
  nodeIdCounter (handle ClearAll st) = 2%N.
Proof.
  intros Halloc%reachable_allocated. split_and!.
  - apply Halloc.
  - intros evs Hclear.
    destruct (issued_from_allocator evs st Halloc Hclear) as [Hdup Hfrom].
    destruct Halloc as [Hids Hbelow].
    apply NoDup_app. split_and!; [done| |done].
    intros i (k & Hk & ->)%Hbelow (k' & Hk' & Heq%(inj pretty))%Hfrom. lia.
  - intros ev Hev.
    destruct (handle_nodes ev st)
      as [(keep & _ & ->)|[(node & _ & _ & ->)|(? & _)]]; [lia|lia|done].
  - done.
Qed.

Lemma ids_unique_allocator_monotone_witness :
  reachable chain ∧
  NoDup (map Node.id (nodes chain)) ∧
  (∀ evs, ClearAll ∉ evs → NoDup (map Node.id (nodes chain) ++ issued evs chain)) ∧
  (∀ ev, ev ≠ ClearAll → (nodeIdCounter chain ≤ nodeIdCounter (handle ev chain))%N) ∧
  nodeIdCounter (handle ClearAll chain) = 2%N.
Proof.
  assert (reachable chain) as Hreach by (by exists chain_events).
  split; [exact Hreach|]. exact (ids_unique_allocator_monotone chain Hreach).
Defined.

(** C8, as stated, fails across a reset: the node created before the
    reset and the node created after it both get the id 2. *)
Lemma id_reused_after_reset :
  issued [ TypeMessage "a"; CreateNode somewhere; ClearAll;
           TypeMessage "b"; CreateNode somewhere ] initialState
    = ["2"; "2"] ∧
  ¬ NoDup (issued [ TypeMessage "a"; CreateNode somewhere; ClearAll;
                    TypeMessage "b"; CreateNode somewhere ] initialState).
Proof.
  assert (issued [ TypeMessage "a"; CreateNode somewhere; ClearAll;
                   TypeMessage "b"; CreateNode somewhere ] initialState
          = ["2"; "2"]) as Heq by (vm_compute; reflexivity).
  split; [exact Heq|]. rewrite Heq.
  intros [Hnot _]%NoDup_cons. apply Hnot. left.
Qed.

(** * Part III: more properties of the component *)

(** Unfolds the handler of an event and splits on its guards. *)
Ltac handler_cases :=
  unfold onConnect, onNodeClick, onEdgeClick, onPaneClick, deleteSelectedEdge,
    createMessageNode, updateSelectedNode, deleteSelectedNode, handleClearAll,
    saveChanges, cancelSettings, toggleSettings;
  repeat match goal with
         | |- context [if ?c then _ else _] => destruct c eqn:?
         end;
  simpl.

(** ** Invariants of the reachable states *)

(** X1. Every edge of a reachable state has two non-empty endpoint ids
    that differ: [onConnect] lets nothing else through, and no other
    handler adds an edge. *)
Theorem edges_have_two_endpoints (st : AppState) :
  reachable st →
  ∀ edge, edge ∈ edges st →
    Edge.source edge ≠ "" ∧ Edge.target edge ≠ "" ∧
    Edge.source edge ≠ Edge.target edge.
Proof.
  revert st.
  apply (reachable_invariant
           (λ st, ∀ edge, edge ∈ edges st →
              Edge.source edge ≠ "" ∧ Edge.target edge ≠ "" ∧
              Edge.source edge ≠ Edge.target edge)).
  - intros edge Hin. by apply not_elem_of_nil in Hin.
  - intros ev st Hinv edge Hin.
    destruct ev; simpl in Hin.
    { destruct (onConnect_edges params st) as [Heq|(Heq & Hs & Ht & Hne & _)];
        rewrite Heq in Hin; [by apply Hinv|].
      apply elem_of_app in Hin as [Hin| ->%list_elem_of_singleton];
        [by apply Hinv|done]. }
    all: revert Hin; handler_cases; intros Hin;
      first [ by apply Hinv
            | by apply not_elem_of_nil in Hin
            | apply list_elem_of_In, filter_In in Hin as [Hin _];
              apply Hinv; by apply list_elem_of_In ].
Qed.

Lemma edges_have_two_endpoints_witness :
  reachable chain ∧
  ∀ edge, edge ∈ edges chain →
    Edge.source edge ≠ "" ∧ Edge.target edge ≠ "" ∧
    Edge.source edge ≠ Edge.target edge.
Proof.
  assert (reachable chain) as Hreach by (by exists chain_events).
  split; [exact Hreach|]. exact (edges_have_two_endpoints chain Hreach).
Defined.

(** X2. At most one thing is selected: in every reachable state the
    selected node id or the selected edge id is null. *)
Theorem selection_exclusive (st : AppState) :
  reachable st → selectedNodeId st = None ∨ selectedEdgeId st = None.
Proof.
  revert st.
  apply (reachable_invariant
           (λ st, selectedNodeId st = None ∨ selectedEdgeId st = None));
    [by left|].
  intros ev st Hinv. destruct ev; simpl; handler_cases; auto.
Qed.

Lemma selection_exclusive_witness :
  reachable chain_selected ∧
  (selectedNodeId chain_selected = None ∨ selectedEdgeId chain_selected = None).
Proof.
  assert (reachable chain_selected) as Hreach by (by eexists).
  split; [exact Hreach|]. exact (selection_exclusive chain_selected Hreach).
Defined.

(** *** No dangling edges *)

Lemma no_dangling_same_ids nodes nodes' edges :
  map Node.id nodes' = map Node.id nodes →
  no_dangling nodes edges → no_dangling nodes' edges.
Proof. intros Hids Hinv edge Hin. rewrite Hids. by apply Hinv. Qed.

Lemma no_dangling_filter keep nodes edges :
  no_dangling nodes edges → no_dangling nodes (List.filter keep edges).
Proof.
  intros Hinv edge [Hin%list_elem_of_In _]%list_elem_of_In%filter_In.
  by apply Hinv.
Qed.

Lemma updated_ids (selected : option string) (text : string) (l : list Node.t) :
  map Node.id
    (map (λ node,
            if bool_decide (Some (Node.id node) = selected)
            then {| Node.id := Node.id node;
                    Node.type := Node.type node;
                    Node.position := Node.position node;
                    Node.data := {| message := text |} |}
            else node) l)
  = map Node.id l.
Proof. rewrite map_map. apply map_ext. intros node. by case_bool_decide. Qed.

Lemma handle_no_dangling ev st :
  match ev with
  | Connect params =>
      source params ∈ map Node.id (nodes st) ∧
      target params ∈ map Node.id (nodes st)
  | _ => True
  end →
  no_dangling (nodes st) (edges st) →
  no_dangling (nodes (handle ev st)) (edges (handle ev st)).
Proof.
  intros Haimed Hinv. destruct ev; simpl; try done.
  - assert (nodes (onConnect params st) = nodes st) as ->
      by (by destruct (onConnect_cases params st)).
    destruct (onConnect_edges params st) as [->|(-> & _)]; [done|].
    intros edge [Hin| ->%list_elem_of_singleton]%elem_of_app; [by apply Hinv|done].
  - unfold deleteSelectedEdge.
    destruct (negb (truthy_opt (selectedEdgeId st))); [done|]. simpl.
    by apply no_dangling_filter.
  - unfold createMessageNode.
    destruct (negb (truthy (trim (messageText st)))); [done|]. simpl.
    intros edge Hin. rewrite map_app, !elem_of_app.
    destruct (Hinv edge Hin). auto.
  - unfold updateSelectedNode.
    destruct (negb (truthy_opt (selectedNodeId st))
              || negb (truthy (trim (messageText st)))); [done|]. simpl.
    eapply no_dangling_same_ids; [apply updated_ids|done].
  - unfold deleteSelectedNode.
    destruct (negb (truthy_opt (selectedNodeId st))); [done|]. simpl.
    intros edge [Hin [Hs Ht]%andb_prop]%list_elem_of_In%filter_In.
    apply bool_decide_eq_true in Hs, Ht. apply list_elem_of_In in Hin.
    destruct (Hinv edge Hin) as [Hsrc Htgt].
    apply list_elem_of_fmap in Hsrc as (n1 & Hid1 & Hn1).
    apply list_elem_of_fmap in Htgt as (n2 & Hid2 & Hn2).
    split; apply list_elem_of_fmap; [exists n1|exists n2]; (split; [done|]);
      apply list_elem_of_In, filter_In; (split; [by apply list_elem_of_In|]);
      apply bool_decide_eq_true; congruence.
  - intros edge Hin. by apply not_elem_of_nil in Hin.
  - unfold saveChanges.
    by destruct (negb (areAllNodesConnected (nodes st) (edges st))).
Qed.

Lemma run_no_dangling evs : ∀ st,
  well_aimed evs st →
  no_dangling (nodes st) (edges st) →
  no_dangling (nodes (run evs st)) (edges (run evs st)).
Proof.
  induction evs as [|ev evs IH]; intros st Haimed Hinv; [done|].
  destruct Haimed as [Hev Hrest]. apply IH; [done|].
  by apply handle_no_dangling.
Qed.

(** X4. As long as connections are only drawn between nodes that exist,
    no edge ever dangles: whatever is created, updated, deleted or reset
    in between, every edge starts and ends at a node of the graph. *)
Theorem no_dangling_edges (evs : list Event) :
  well_aimed evs initialState →
  no_dangling (nodes (run evs initialState)) (edges (run evs initialState)).
Proof.
  intros Haimed. apply run_no_dangling; [done|].
  intros edge Hin. by apply not_elem_of_nil in Hin.
Qed.

Lemma no_dangling_edges_witness :
  well_aimed chain_events initialState ∧
  no_dangling (nodes (run chain_events initialState))
    (edges (run chain_events initialState)).
Proof.
  assert (well_aimed chain_events initialState) as Haimed.
  { simpl. repeat split; apply list_elem_of_In; vm_compute; auto. }
  split; [exact Haimed|]. exact (no_dangling_edges chain_events Haimed).
Defined.

(** ** Creating and updating nodes *)

(** Induction on the length of a list of bytes. *)
Lemma bytes_length_ind (P : list Ascii.ascii → Prop) :
  (∀ l, (∀ l', length l' < length l → P l') → P l) → ∀ l, P l.
Proof.
  intros Hstep l. remember (length l) as n eqn:Hn. revert l Hn.
  induction n as [n IH] using lt_wf_ind. intros l ->.
  apply Hstep. intros l' Hlt. by apply (IH (length l')).
Qed.

(** One step of [stripLeading]: the list starts with no white-space
    character and is returned, or it starts with one, which is dropped. *)
Lemma stripLeading_step sp2 sp3 l :
  (stripLeading sp2 sp3 l = l ∧
   ∀ tok r, space_token sp2 sp3 tok → l ≠ tok ++ r) ∨
  (∃ tok r, space_token sp2 sp3 tok ∧ l = tok ++ r ∧
            stripLeading sp2 sp3 l = stripLeading sp2 sp3 r).
Proof.
  destruct l as [|c1 [|c2 [|c3 r3]]]; simpl.
  - left. split; [done|]. intros tok r Htok Heq. by destruct Htok.
  - destruct (whiteSpace1 c1) eqn:H1.
    { right. exists [c1], []. split_and!; [by constructor|done|done]. }
    left. split; [done|]. intros tok r Htok Heq.
    destruct Htok; simplify_eq/=; congruence.
  - destruct (whiteSpace1 c1) eqn:H1.
    { right. exists [c1], [c2]. split_and!; [by constructor|done|done]. }
    destruct (sp2 c1 c2) eqn:H2.
    { right. exists [c1; c2], []. split_and!; [by constructor|done|done]. }
    left. split; [done|]. intros tok r Htok Heq.
    destruct Htok; simplify_eq/=; congruence.
  - destruct (whiteSpace1 c1) eqn:H1.
    { right. exists [c1], (c2 :: c3 :: r3).
      split_and!; [by constructor|done|done]. }
    destruct (sp2 c1 c2) eqn:H2.
    { right. exists [c1; c2], (c3 :: r3).
      split_and!; [by constructor|done|done]. }
    destruct (sp3 c1 c2 c3) eqn:H3.
    { right. exists [c1; c2; c3], r3. split_and!; [by constructor|done|done]. }
    left. split; [done|]. intros tok r Htok Heq.
    destruct Htok; simplify_eq/=; congruence.
Qed.

Lemma space_token_length sp2 sp3 tok : space_token sp2 sp3 tok → 0 < length tok.
Proof. intros []; simpl; lia. Qed.

(** What [stripLeading] returns does not start with white space. *)
Lemma stripLeading_result sp2 sp3 l tok r :
  space_token sp2 sp3 tok → stripLeading sp2 sp3 l ≠ tok ++ r.
Proof.
  revert tok r. induction l as [l IH] using bytes_length_ind. intros tok r Htok.
  destruct (stripLeading_step sp2 sp3 l)
    as [[-> Hnone]|(tok' & r' & Htok' & -> & ->)]; [by apply Hnone|].
  apply IH; [|done]. apply space_token_length in Htok'.
  rewrite length_app. lia.
Qed.

(** A white-space character read backwards is one read forwards. *)
Lemma space_token_rev tok :
  space_token (λ c2 c1, whiteSpace2 c1 c2) (λ c3 c2 c1, whiteSpace3 c1 c2 c3) tok →
  space_token whiteSpace2 whiteSpace3 (rev tok).
Proof. intros []; simpl; by constructor. Qed.

(** If stripping the reversed bytes leaves nothing, the bytes start with
    white space. *)
Lemma stripLeading_rev_nil u :
  stripLeading (λ c2 c1, whiteSpace2 c1 c2) (λ c3 c2 c1, whiteSpace3 c1 c2 c3) u
    = [] →
  u ≠ [] →
  ∃ tok r, space_token whiteSpace2 whiteSpace3 tok ∧ rev u = tok ++ r.
Proof.
  induction u as [u IH] using bytes_length_ind. intros Hnil Hne.
  destruct (stripLeading_step (λ c2 c1, whiteSpace2 c1 c2)
              (λ c3 c2 c1, whiteSpace3 c1 c2 c3) u)
    as [[Heq _]|(tok & r & Htok & -> & Heq)]; [congruence|].
  rewrite Heq in Hnil. rewrite rev_app_distr.
  destruct r as [|c r].
  { exists (rev tok), []. split; [by apply space_token_rev|].
    by rewrite app_nil_r. }
  destruct (IH (c :: r)) as (tok' & r' & Htok' & ->); [|done|done|].
  { apply space_token_length in Htok. rewrite length_app. lia. }
  exists tok', (r' ++ rev tok). split; [done|]. by rewrite app_assoc.
Qed.

Lemma stripLeading_nil_blank l :
  stripLeading whiteSpace2 whiteSpace3 l = [] ↔ blankBytes l = true.
Proof.
  induction l as [l IH] using bytes_length_ind.
  destruct l as [|c1 [|c2 [|c3 r3]]].
  - done.
  - simpl. destruct (whiteSpace1 c1); [done|]. split; discriminate.
  - assert (IH1 := IH [c2] ltac:(simpl; lia)).
    simpl in *. destruct (whiteSpace1 c1); [done|].
    destruct (whiteSpace2 c1 c2); [done|]. split; discriminate.
  - assert (IH1 := IH (c2 :: c3 :: r3) ltac:(simpl; lia)).
    assert (IH2 := IH (c3 :: r3) ltac:(simpl; lia)).
    assert (IH3 := IH r3 ltac:(simpl; lia)). clear IH.
    change (stripLeading whiteSpace2 whiteSpace3 (c1 :: c2 :: c3 :: r3)) with
      (if whiteSpace1 c1 then stripLeading whiteSpace2 whiteSpace3 (c2 :: c3 :: r3)
       else if whiteSpace2 c1 c2 then stripLeading whiteSpace2 whiteSpace3 (c3 :: r3)
       else if whiteSpace3 c1 c2 c3 then stripLeading whiteSpace2 whiteSpace3 r3
       else c1 :: c2 :: c3 :: r3).
    change (blankBytes (c1 :: c2 :: c3 :: r3)) with
      (if whiteSpace1 c1 then blankBytes (c2 :: c3 :: r3)
       else if whiteSpace2 c1 c2 then blankBytes (c3 :: r3)
       else whiteSpace3 c1 c2 c3 && blankBytes r3).
    destruct (whiteSpace1 c1); [done|].
    destruct (whiteSpace2 c1 c2); [done|].
    destruct (whiteSpace3 c1 c2 c3); [done|]. split; discriminate.
Qed.

(** Trimming leaves nothing exactly when the text is blank. *)
Lemma trim_empty s : trim s = "" ↔ blank s = true.
Proof.
  unfold trim, blank. rewrite <-stripLeading_nil_blank.
  set (t := stripLeading whiteSpace2 whiteSpace3 (String.list_ascii_of_string s)).
  split.
  - intros Hnil.
    assert (stripLeading (λ c2 c1, whiteSpace2 c1 c2)
              (λ c3 c2 c1, whiteSpace3 c1 c2 c3) (rev t) = []) as Hstrip.
    { destruct (stripLeading _ _ (rev t)) as [|c l] eqn:Heq; [done|].
      simpl in Hnil. destruct (rev l ++ [c]) eqn:Hl; [|done].
      by apply app_eq_nil in Hl as [_ ?]. }
    destruct (decide (t = [])) as [|Hne]; [done|]. exfalso.
    apply stripLeading_rev_nil in Hstrip as (tok & r & Htok & Hrev).
    + rewrite rev_involutive in Hrev.
      exact (stripLeading_result _ _ _ _ _ Htok Hrev).
    + intros Heq. apply Hne. by rewrite <-(rev_involutive t), Heq.
  - by intros ->.
Qed.

Lemma truthy_trim s : truthy (trim s) = negb (blank s).
Proof.
  destruct (blank s) eqn:Hblank; simpl.
  - by apply truthy_false, trim_empty.
  - apply truthy_true. rewrite trim_empty. by rewrite Hblank.
Qed.

(** The white space goes at both ends and stays inside; a text of
    no-break spaces and line breaks is blank, and nothing is created for
    it. *)
Example trim_both_ends :
  trim (" " +:+ noBreakSpace +:+ "a b" +:+ noBreakSpace +:+ " ") = "a b".
Proof. vm_compute. reflexivity. Qed.

Example no_break_space_creates_nothing :
  blank (noBreakSpace +:+ " ") = true ∧
  createMessageNode somewhere (setMessageText (noBreakSpace +:+ " ") initialState)
  = setMessageText (noBreakSpace +:+ " ") initialState.
Proof. split; vm_compute; reflexivity. Qed.

(** X5. [createMessageNode] does nothing exactly when the message text is
    blank, which is also exactly when the Create button is disabled.
    Otherwise it appends one node that carries the text and the
    allocator's next value as its id, and leaves the nodes that were
    there, and the edges, as they were. *)
Theorem createMessageNode_blank (position : XYPosition) (st : AppState) :
  (createMessageNode position st = st ↔ blank (messageText st) = true) ∧
  (submitDisabled st = true ↔ blank (messageText st) = true) ∧
  (blank (messageText st) = false →
   ∃ node,
     nodes (createMessageNode position st) = nodes st ++ [node] ∧
     Node.id node = pretty (nodeIdCounter st) ∧
     message (Node.data node) = messageText st ∧
     Node.position node = position ∧
     edges (createMessageNode position st) = edges st ∧
     nodeIdCounter (createMessageNode position st) = (nodeIdCounter st + 1)%N ∧
     messageText (createMessageNode position st) = "").
Proof.
  unfold submitDisabled, createMessageNode. rewrite truthy_trim, negb_involutive.
  destruct (blank (messageText st)) eqn:Hblank; simpl.
  - split_and!; done.
  - split_and!.
    + split; [|done]. intros Heq. apply (f_equal nodes), (f_equal length) in Heq.
      simpl in Heq. rewrite length_app in Heq. simpl in Heq. lia.
    + done.
    + intros _. eexists. split_and!; reflexivity.
Qed.

Lemma forallb_ids (P : string → bool) (l l' : list Node.t) :
  map Node.id l = map Node.id l' →
  forallb (λ node, P (Node.id node)) l = forallb (λ node, P (Node.id node)) l'.
Proof.
  revert l'. induction l as [|n l IH]; intros [|n' l'] Hids; simpl in *;
    try done.
  injection Hids as Hid Hids. rewrite Hid. f_equal. by apply IH.
Qed.

(** Whether all nodes are connected depends on the nodes only through
    their ids. *)
Lemma areAllNodesConnected_ids nodes nodes' edges :
  map Node.id nodes = map Node.id nodes' →
  areAllNodesConnected nodes edges = areAllNodesConnected nodes' edges.
Proof.
  intros Hids. unfold areAllNodesConnected.
  assert (length nodes = length nodes') as ->.
  { by rewrite <-(length_map Node.id nodes), Hids, length_map. }
  case_bool_decide; [done|].
  exact (forallb_ids (λ i, bool_decide (i ∈ connectedNodeIds edges))
           nodes nodes' Hids).
Qed.

Lemma areAllNodesConnected_false nodes edges node :
  1 < length nodes → node ∈ nodes →
  (∀ edge, edge ∈ edges →
     Edge.source edge ≠ Node.id node ∧ Edge.target edge ≠ Node.id node) →
  areAllNodesConnected nodes edges = false.
Proof.
  intros Hlen Hnode Hfree. unfold areAllNodesConnected.
  rewrite bool_decide_eq_false_2 by lia.
  destruct (forallb _ nodes) eqn:Hall; [|done]. exfalso.
  rewrite forallb_forall in Hall.
  specialize (Hall node). rewrite <-list_elem_of_In in Hall.
  apply Hall, bool_decide_eq_true, elem_of_connectedNodeIds in Hnode
    as (edge & Hedge & Hend).
  destruct (Hfree edge Hedge). naive_solver.
Qed.

(** X6. A node just created is not connected to anything: in a reachable
    state without dangling edges that already has a node, creating a node
    turns [canSave] off, so the save is blocked until the node is
    connected. *)
Theorem create_blocks_save (position : XYPosition) (st : AppState) :
  reachable st →
  no_dangling (nodes st) (edges st) →
  nodes st ≠ [] →
  blank (messageText st) = false →
  canSave (createMessageNode position st) = false ∧
  saveChanges (createMessageNode position st)
    = toast msgSaveBlocked (createMessageNode position st).
Proof.
  intros Hfresh%reachable_allocated%allocated_fresh Hinv Hnodes Hblank.
  assert (canSave (createMessageNode position st) = false) as Hcan.
  { unfold canSave, createMessageNode. rewrite truthy_trim, Hblank. simpl.
    eapply areAllNodesConnected_false.
    - rewrite length_app. simpl. destruct (nodes st); [done|simpl; lia].
    - apply elem_of_app. right. by apply list_elem_of_singleton.
    - intros edge Hedge. simpl. destruct (Hinv edge Hedge).
      split; congruence. }
  split; [done|]. unfold saveChanges. unfold canSave in Hcan. by rewrite Hcan.
Qed.

Lemma create_blocks_save_witness :
  reachable chain_typed ∧
  no_dangling (nodes chain_typed) (edges chain_typed) ∧
  nodes chain_typed ≠ [] ∧
  blank (messageText chain_typed) = false ∧
  canSave chain_typed = true ∧
  canSave (createMessageNode somewhere chain_typed) = false.
Proof.
  assert (reachable chain_typed) as Hreach by (by exists chain_typed_events).
  assert (no_dangling (nodes chain_typed) (edges chain_typed)) as Hinv.
  { apply run_no_dangling.
    - simpl. repeat split; apply list_elem_of_In; vm_compute; auto.
    - intros edge Hin. by apply not_elem_of_nil in Hin. }
  assert (nodes chain_typed ≠ []) as Hnodes by (vm_compute; discriminate).
  assert (blank (messageText chain_typed) = false) as Hblank
    by (vm_compute; reflexivity).
  split_and!; [exact Hreach|exact Hinv|exact Hnodes|exact Hblank
              |vm_compute; reflexivity|].
  exact (proj1 (create_blocks_save somewhere _ Hreach Hinv Hnodes Hblank)).
Defined.

Lemma updated_members (selected : option string) (text : string)
    (l : list Node.t) node' :
  node' ∈ map (λ node,
                 if bool_decide (Some (Node.id node) = selected)
                 then {| Node.id := Node.id node;
                         Node.type := Node.type node;
                         Node.position := Node.position node;
                         Node.data := {| message := text |} |}
                 else node) l →
  ∃ node, node ∈ l ∧ Node.id node' = Node.id node ∧
          Node.type node' = Node.type node ∧
          Node.position node' = Node.position node ∧
          (if bool_decide (Some (Node.id node) = selected)
           then message (Node.data node') = text
           else node' = node).
Proof.
  intros (node & -> & Hnode)%list_elem_of_fmap. exists node.
  split; [done|]. by case_bool_decide.
Qed.

(** X7. [updateSelectedNode] rewrites messages and nothing else: the
    nodes keep their ids, types, positions and order, the edges and the
    allocator are untouched, and so is [canSave].  The handler does
    nothing exactly when no node is selected or the text is blank.  When
    it acts, every node that carries the selected id ends with the new
    text, every other node stays as it is, and the selection and the text
    are cleared. *)
Theorem updateSelectedNode_only_messages (st : AppState) :
  map Node.id (nodes (updateSelectedNode st)) = map Node.id (nodes st) ∧
  map Node.type (nodes (updateSelectedNode st)) = map Node.type (nodes st) ∧
  map Node.position (nodes (updateSelectedNode st))
    = map Node.position (nodes st) ∧
  edges (updateSelectedNode st) = edges st ∧
  nodeIdCounter (updateSelectedNode st) = nodeIdCounter st ∧
  canSave (updateSelectedNode st) = canSave st ∧
  persistedNodes (updateSelectedNode st)
    = (if truthy_opt (selectedNodeId st) && negb (blank (messageText st))
       then nodes (updateSelectedNode st) else persistedNodes st) ∧
  (updateSelectedNode st = st ↔
   truthy_opt (selectedNodeId st) = false ∨ blank (messageText st) = true) ∧
  (truthy_opt (selectedNodeId st) = true →
   blank (messageText st) = false →
   (∀ i node, nodes st !! i = Some node →
      ∃ node', nodes (updateSelectedNode st) !! i = Some node' ∧
        (Some (Node.id node) = selectedNodeId st →
         message (Node.data node') = messageText st) ∧
        (Some (Node.id node) ≠ selectedNodeId st → node' = node)) ∧
   selectedNodeId (updateSelectedNode st) = None ∧
   messageText (updateSelectedNode st) = "" ∧
   showSettings (updateSelectedNode st) = false).
Proof.
  unfold canSave, updateSelectedNode. rewrite truthy_trim, negb_involutive.
  destruct (truthy_opt (selectedNodeId st)) eqn:Hsel; simpl;
    [|split_and!; first [done|naive_solver]].
  destruct (blank (messageText st)) eqn:Hblank; simpl;
    [split_and!; first [done|naive_solver]|].
  split_and!.
  - apply updated_ids.
  - rewrite map_map. apply map_ext. intros node. by case_bool_decide.
  - rewrite map_map. apply map_ext. intros node. by case_bool_decide.
  - done.
  - done.
  - apply areAllNodesConnected_ids, updated_ids.
  - done.
  - split; [|intros [?|?]; done].
    intros Heq. apply (f_equal messageText) in Heq. simpl in Heq.
    rewrite <-Heq in Hblank. done.
  - intros _ _. split_and!; [|done..].
    intros i node Hi. eexists. split.
    + change (map ?f ?l) with (f <$> l). rewrite list_lookup_fmap, Hi.
      reflexivity.
    + simpl. by case_bool_decide.
Qed.

Lemma updateSelectedNode_only_messages_witness :
  truthy_opt (selectedNodeId chain_selected_typed) = true ∧
  blank (messageText chain_selected_typed) = false ∧
  map (λ node, (Node.id node, message (Node.data node)))
    (nodes chain_selected_typed)
    = [("1", "Hello! Welcome to our Bitespeed."); ("2", "a"); ("3", "b")] ∧
  map (λ node, (Node.id node, message (Node.data node)))
    (nodes (updateSelectedNode chain_selected_typed))
    = [("1", "Hello! Welcome to our Bitespeed."); ("2", "new text");
       ("3", "b")] ∧
  selectedNodeId (updateSelectedNode chain_selected_typed) = None.
Proof.
  assert (truthy_opt (selectedNodeId chain_selected_typed) = true) as Hsel
    by (vm_compute; reflexivity).
  assert (blank (messageText chain_selected_typed) = false) as Hblank
    by (vm_compute; reflexivity).
  split_and!; [exact Hsel|exact Hblank|vm_compute; reflexivity..|].
  destruct (updateSelectedNode_only_messages chain_selected_typed)
    as (_ & _ & _ & _ & _ & _ & _ & _ & Hacts).
  exact (proj1 (proj2 (Hacts Hsel Hblank))).
Defined.

Lemma NoDup_ids_eq (l : list Node.t) (n m : Node.t) :
  NoDup (map Node.id l) → n ∈ l → m ∈ l → Node.id n = Node.id m → n = m.
Proof.
  induction l as [|a l IH]; simpl.
  - by intros _ ?%not_elem_of_nil.
  - intros [Hnot Hdup]%NoDup_cons [->|Hn]%elem_of_cons [->|Hm]%elem_of_cons Hid.
    + done.
    + exfalso. apply Hnot. rewrite Hid. apply list_elem_of_fmap. eauto.
    + exfalso. apply Hnot. rewrite <-Hid. apply list_elem_of_fmap. eauto.
    + by apply IH.
Qed.

(** X8. Clicking a node of a reachable graph and pressing Update without
    editing the text changes neither the nodes nor the edges: the click
    loads the node's own message, and the ids are distinct, so the update
    writes the message back to the one node it came from. *)
Theorem click_update_round_trip (st : AppState) (node : Node.t) :
  reachable st →
  node ∈ nodes st →
  nodes (updateSelectedNode (onNodeClick node st)) = nodes st ∧
  edges (updateSelectedNode (onNodeClick node st)) = edges st ∧
  nodeIdCounter (updateSelectedNode (onNodeClick node st)) = nodeIdCounter st.
Proof.
  intros [Hdup _]%reachable_allocated Hnode.
  unfold updateSelectedNode, onNodeClick. simpl.
  destruct (negb (truthy (Node.id node))
            || negb (truthy (trim (message (Node.data node))))); [done|].
  simpl. split_and!; [|done|done].
  rewrite <-(map_id (nodes st)) at 2. apply map_ext_in.
  intros m Hm%list_elem_of_In. case_bool_decide as Hid; [|done].
  assert (m = node) as -> by (apply (NoDup_ids_eq (nodes st)); congruence).
  by destruct node as [? ? ? []].
Qed.

Lemma click_update_round_trip_witness :
  reachable chain ∧
  (∀ node, node ∈ nodes chain →
     nodes (updateSelectedNode (onNodeClick node chain)) = nodes chain).
Proof.
  assert (reachable chain) as Hreach by (by exists chain_events).
  split; [exact Hreach|]. intros node Hnode.
  exact (proj1 (click_update_round_trip chain node Hreach Hnode)).
Defined.

(** ** The Delete key *)

(** X9. The Delete key acts on a selected edge only.  After a click on an
    edge whose id is not empty it removes the edges with that id and no
    other edge, clears the selection and reports it; with any other key,
    or with no edge selected, the state stays as it is, so the key never
    deletes a node. *)
Theorem delete_key_removes_selected_edge (st : AppState) :
  (∀ key, nodes (handleKeyDown key st) = nodes st ∧
          nodeIdCounter (handleKeyDown key st) = nodeIdCounter st) ∧
  (∀ key, key ≠ "Delete" ∨ truthy_opt (selectedEdgeId st) = false →
          handleKeyDown key st = st) ∧
  (∀ edge, Edge.id edge ≠ "" →
     (∀ edge', edge' ∈ edges (handleKeyDown "Delete" (onEdgeClick edge st)) ↔
               edge' ∈ edges st ∧ Edge.id edge' ≠ Edge.id edge) ∧
     selectedEdgeId (handleKeyDown "Delete" (onEdgeClick edge st)) = None ∧
     toasts (handleKeyDown "Delete" (onEdgeClick edge st))
       = toasts st ++ [msgConnectionRemoved]).
Proof.
  split_and!.
  - intros key. unfold handleKeyDown, deleteSelectedEdge.
    destruct (bool_decide (key = "Delete") && truthy_opt (selectedEdgeId st));
      [|done].
    by destruct (negb (truthy_opt (selectedEdgeId st))).
  - intros key Hcase. unfold handleKeyDown.
    destruct Hcase as [Hkey| ->]; [|by rewrite andb_false_r].
    by rewrite bool_decide_eq_false_2.
  - intros edge Hid%truthy_true.
    unfold handleKeyDown, deleteSelectedEdge, onEdgeClick. simpl.
    rewrite Hid. simpl. split_and!; [|done|done].
    intros edge'. rewrite list_elem_of_In, filter_In, <-list_elem_of_In.
    rewrite bool_decide_eq_true. split; intros [? ?]; split; congruence.
Qed.

(** ** The messages *)

(** A handler appends its messages to the log and never reads the log:
    with another log in place it does the same and emits the same. *)
Lemma handle_setToasts ev st l :
  ∃ out,
    toasts (handle ev st) = toasts st ++ out ∧
    handle ev (setToasts l st) = setToasts (l ++ out) (handle ev st).
Proof.
  destruct st as [ns es pns pes ctr selN selE text shown log].
  destruct ev;
    unfold handle, onConnect, onNodeClick, onEdgeClick, onPaneClick,
      deleteSelectedEdge, createMessageNode, updateSelectedNode,
      deleteSelectedNode, handleClearAll, saveChanges, cancelSettings,
      toggleSettings;
    cbn [setToasts nodes edges persistedNodes persistedEdges nodeIdCounter
         selectedNodeId selectedEdgeId messageText showSettings];
    repeat match goal with
           | |- context [if ?c then _ else _] => destruct c
           end;
    first [ exists []; rewrite !app_nil_r; split; reflexivity
          | eexists [_]; split; reflexivity ].
Qed.

Lemma run_setToasts evs : ∀ st l,
  ∃ out,
    toasts (run evs st) = toasts st ++ out ∧
    run evs (setToasts l st) = setToasts (l ++ out) (run evs st).
Proof.
  induction evs as [|ev evs IH]; intros st l; simpl.
  - exists []. rewrite !app_nil_r. by destruct st.
  - destruct (handle_setToasts ev st l) as (out1 & Hlog1 & ->).
    destruct (IH (handle ev st) (l ++ out1)) as (out2 & Hlog2 & Hrun).
    exists (out1 ++ out2). rewrite Hlog2, Hlog1, Hrun, <-!app_assoc. done.
Qed.

(** X11. After Clear All the component is where a fresh start is, apart
    from the messages already shown: every sequence of events then leads
    to the state it leads to from the initial state, with the earlier
    messages in front of the log. *)
Theorem clear_all_is_fresh_start (evs : list Event) (st : AppState) :
  run evs (handleClearAll st)
  = setToasts (toasts st ++ toasts (run evs initialState)) (run evs initialState).
Proof.
  assert (handleClearAll st = setToasts (toasts st) initialState) as -> by done.
  destruct (run_setToasts evs initialState (toasts st)) as (out & Hlog & ->).
  by rewrite Hlog.
Qed.

(** ** Saving and connecting *)

Lemma connectedNodeIds_app edges edges' :
  connectedNodeIds edges ⊆ connectedNodeIds (edges ++ edges').
Proof.
  intros i (edge & Hedge & Hend)%elem_of_connectedNodeIds.
  apply elem_of_connectedNodeIds. exists edge.
  split; [apply elem_of_app; by left|done].
Qed.

Lemma areAllNodesConnected_app nodes edges edges' :
  areAllNodesConnected nodes edges = true →
  areAllNodesConnected nodes (edges ++ edges') = true.
Proof.
  unfold areAllNodesConnected. case_bool_decide; [done|].
  rewrite !forallb_forall. intros Hall node Hnode.
  apply bool_decide_eq_true_2, (connectedNodeIds_app edges edges').
  eapply bool_decide_eq_true_1, Hall, Hnode.
Qed.

(** X12. Drawing a connection never blocks the save: if [canSave] holds
    before [onConnect], it holds after, whether the connection was
    accepted or rejected. *)
Theorem connect_keeps_canSave (st : AppState) (params : Connection) :
  canSave st = true → canSave (onConnect params st) = true.
Proof.
  unfold canSave. intros Hcan.
  destruct (onConnect_cases params st); simpl; try done.
  destruct (addEdge_cases params (edges st)) as [->| ->]; [done|].
  by apply areAllNodesConnected_app.
Qed.

Lemma connect_keeps_canSave_witness :
  canSave two_pairs = true ∧
  length (nodes two_pairs) = 4 ∧
  edges (onConnect (conn "2" "3") two_pairs)
    = edges two_pairs ++ [newEdge (conn "2" "3")] ∧
  canSave (onConnect (conn "2" "3") two_pairs) = true.
Proof.
  assert (canSave two_pairs = true) as Hcan by (vm_compute; reflexivity).
  split_and!; [exact Hcan|reflexivity|vm_compute; reflexivity|].
  exact (connect_keeps_canSave two_pairs (conn "2" "3") Hcan).
Defined.

(** X13. The warning card is shown exactly when the Save buttons are
    disabled: the test [nodes.length > 1] in its condition is implied by
    [!canSave], because a flow of at most one node always counts as
    connected. *)
Theorem warning_iff_save_disabled (st : AppState) :
  showWarning st = negb (canSave st).
Proof.
  unfold showWarning, canSave, areAllNodesConnected.
  case_bool_decide as Hlen; simpl; [done|].
  rewrite bool_decide_eq_true_2 by lia. by rewrite andb_true_r.
Qed.

(** X14. A connection cannot be drawn backwards over an accepted one:
    once [onConnect] has added the edge from S to T, a connection from T
    to S, from whatever handles, leaves the graph as it is. *)
Theorem reverse_connection_rejected (st : AppState) (params back : Connection) :
  edges (onConnect params st) ≠ edges st →
  source back = target params →
  target back = source params →
  same_graph (onConnect params st) (onConnect back (onConnect params st)).
Proof.
  intros Hadded Hsrc Htgt.
  destruct (onConnect_cases back (onConnect params st))
    as [| | | |_ _ _ _ Hno];
    try apply toast_same_graph; try by repeat split.
  exfalso. apply Hno. rewrite Hsrc, Htgt.
  destruct (onConnect_cases params st); simpl in *; try done.
  destruct (addEdge_cases params (edges st)) as [Heq|Heq]; [done|].
  rewrite Heq. apply rtc_once. apply edge_rel_app. by right.
Qed.

Lemma reverse_connection_rejected_witness :
  edges (onConnect (conn "1" "2") initialState) ≠ edges initialState ∧
  same_graph (onConnect (conn "1" "2") initialState)
    (onConnect (conn "2" "1") (onConnect (conn "1" "2") initialState)).
Proof.
  assert (edges (onConnect (conn "1" "2") initialState) ≠ edges initialState)
    as Hadded by (vm_compute; discriminate).
  split; [exact Hadded|].
  exact (reverse_connection_rejected initialState (conn "1" "2") (conn "2" "1")
           Hadded eq_refl eq_refl).
Defined.

(** X15. Drawing the same connection twice is the same as drawing it
    once, as far as the graph goes: the second [onConnect] is rejected by
    one of the checks, or it passes them and [addEdge] returns the edges
    as they are.  For a connection between handles without id, as the
    message nodes have them, the second attempt on an accepted connection
    passes every check, shows no message and leaves the state as it
    is. *)
Theorem connect_twice (st : AppState) (params : Connection) :
  same_graph (onConnect params st) (onConnect params (onConnect params st)) ∧
  (∀ evs s t,
     edges (onConnect (conn s t) (run evs initialState))
       ≠ edges (run evs initialState) →
     onConnect (conn s t) (onConnect (conn s t) (run evs initialState))
       = onConnect (conn s t) (run evs initialState)).
Proof.
  split.
  - destruct (onConnect_cases params (onConnect params st))
      as [| | | |Hs Ht Hne Hfree Hno];
      try apply toast_same_graph; try by repeat split.
    destruct (onConnect_cases params st) as [[Hmissing|Hmissing]| | | |];
      simpl in *; try done.
    rewrite addEdge_idem. by repeat split.
  - intros evs s t Hadded. apply onConnect_again; [done|].
    change (onConnect (conn s t) (run evs initialState))
      with (handle (Connect (conn s t)) (run evs initialState)).
    change (handle (Connect (conn s t)) (run evs initialState))
      with (run [Connect (conn s t)] (run evs initialState)).
    rewrite <-run_app. apply id_less_handle_free.
Qed.

Lemma connect_twice_witness :
  edges (onConnect (conn "1" "2") (run [TypeMessage "a"; CreateNode somewhere]
                                     initialState))
    ≠ edges (run [TypeMessage "a"; CreateNode somewhere] initialState) ∧
  onConnect (conn "1" "2")
    (onConnect (conn "1" "2")
       (run [TypeMessage "a"; CreateNode somewhere] initialState))
  = onConnect (conn "1" "2")
      (run [TypeMessage "a"; CreateNode somewhere] initialState).
Proof.
  assert (edges (onConnect (conn "1" "2")
                   (run [TypeMessage "a"; CreateNode somewhere] initialState))
            ≠ edges (run [TypeMessage "a"; CreateNode somewhere] initialState))
    as Hadded by (vm_compute; discriminate).
  split; [exact Hadded|].
  exact (proj2 (connect_twice initialState (conn "1" "2"))
           [TypeMessage "a"; CreateNode somewhere] "1" "2" Hadded).
Defined.

(** ** The earlier revision *)

Lemma path_app_l edges edges' a b : path edges a b → path (edges ++ edges') a b.
Proof.
  apply rtc_subrel. intros c d (e & He & Hsrc & Htgt).
  exists e. split; [apply elem_of_app; by left|done].
Qed.

(** X16. The earlier [onConnect] is the later one without the cycle
    check.  For a connection with both endpoint ids present the two
    handlers end in the same state, unless the later one rejects the
    connection for a cycle: that connection the earlier one appends, and
    the edge set then has a cycle. *)
Theorem earlier_onConnect_lacks_cycle_check (st : AppState) (params : Connection) :
  source params ≠ "" → target params ≠ "" →
  (onConnect params st ≠ toast msgWouldCreateCycle st →
   Earlier.onConnect params st = onConnect params st) ∧
  (onConnect params st = toast msgWouldCreateCycle st →
   edges (Earlier.onConnect params st) = addEdge params (edges st) ∧
   ¬ acyclic (edges (Earlier.onConnect params st))).
Proof.
  intros Hs Ht. unfold Earlier.onConnect, Earlier.alert.
  destruct (onConnect_cases params st)
    as [[?|?]|_ _ Heq|_ _ Hne Htaken|_ _ Hne Hfree Hpath|_ _ Hne Hfree Hno];
    try done.
  - rewrite bool_decide_eq_true_2 by done. split; [done|].
    by intros ?%toast_inj.
  - rewrite bool_decide_eq_false_2 by done.
    apply sourceHasEdge_true in Htaken. rewrite Htaken. split; [done|].
    by intros ?%toast_inj.
  - rewrite bool_decide_eq_false_2 by done.
    apply sourceHasEdge_false in Hfree. rewrite Hfree. simpl. split; [done|].
    intros _. split; [done|].
    intros Hacyclic. apply (Hacyclic (source params)). unfold path1.
    destruct (addEdge_cases params (edges st)) as [Heq|Heq].
    + destruct (addEdge_unchanged params (edges st))
        as (el & Hel & Hsrc & Htgt); [done|done|done|].
      rewrite Heq. eapply tc_rtc_r; [|exact Hpath].
      apply tc_once. by exists el.
    + rewrite Heq. eapply tc_rtc_r.
      * apply tc_once, edge_rel_app. right. by split.
      * by apply path_app_l.
  - rewrite bool_decide_eq_false_2 by done.
    apply sourceHasEdge_false in Hfree. rewrite Hfree. split; [done|].
    intros Heq. apply (f_equal toasts), (f_equal length) in Heq.
    simpl in Heq. rewrite length_app in Heq. simpl in Heq. lia.
Qed.

Lemma earlier_onConnect_lacks_cycle_check_witness :
  onConnect (conn "3" "1") chain = toast msgWouldCreateCycle chain ∧
  edges (Earlier.onConnect (conn "3" "1") chain)
    = addEdge (conn "3" "1") (edges chain) ∧
  ¬ acyclic (edges (Earlier.onConnect (conn "3" "1") chain)).
Proof.
  assert (onConnect (conn "3" "1") chain = toast msgWouldCreateCycle chain)
    as Hcycle by (vm_compute; reflexivity).
  split; [exact Hcycle|].
  refine (proj2 (earlier_onConnect_lacks_cycle_check chain (conn "3" "1") _ _)
            Hcycle); discriminate.
Defined.

Lemma allocated_same st st' :
  nodes st' = nodes st → nodeIdCounter st' = nodeIdCounter st →
  allocated st → allocated st'.
Proof. unfold allocated. by intros -> ->. Qed.

Lemma earlier_handle_allocated ev st :
  allocated st → allocated (Earlier.handle ev st).
Proof.
  intros Halloc. destruct ev; simpl.
  - unfold Earlier.onConnect, Earlier.alert.
    case_bool_decide; [done|]. by destruct (sourceHasEdge params (edges st)).
  - done.
  - done.
  - apply (handle_allocated (CreateNode position) st Halloc).
  - apply (handle_allocated UpdateNode st Halloc).
  - apply (handle_allocated DeleteNode st Halloc).
  - destruct confirmed; [|done]. split; simpl.
    + apply NoDup_nil_2.
    + by intros i ?%not_elem_of_nil.
  - done.
  - done.
  - done.
Qed.

(** X17. In the earlier revision too the node ids stay distinct and the
    id that the next node will get is not in use, although its [clearAll]
    empties the graph and restarts the allocator at 1; a [clearAll] that
    is not confirmed changes nothing. *)
Theorem earlier_ids_unique (st : AppState) :
  Earlier.reachable st →
  NoDup (map Node.id (nodes st)) ∧
  (pretty (nodeIdCounter st) ∉ map Node.id (nodes st)) ∧
  Earlier.clearAll false st = st ∧
  nodes (Earlier.clearAll true st) = [] ∧
  edges (Earlier.clearAll true st) = [] ∧
  nodeIdCounter (Earlier.clearAll true st) = 1%N.
Proof.
  intros [evs ->].
  assert (allocated (Earlier.run evs initialState)) as Halloc.
  { generalize initial_allocated. generalize initialState.
    induction evs as [|ev evs IH]; intros st Halloc; [done|].
    apply IH. by apply earlier_handle_allocated. }
  split_and!; try done; [apply Halloc|by apply allocated_fresh].
Qed.

Lemma earlier_ids_unique_witness :
  Earlier.reachable
    (Earlier.run [Earlier.ClearAll true; Earlier.TypeMessage "a";
                  Earlier.CreateNode somewhere] initialState) ∧
  map Node.id
    (nodes (Earlier.run [Earlier.ClearAll true; Earlier.TypeMessage "a";
                         Earlier.CreateNode somewhere] initialState)) = ["1"] ∧
  NoDup (map Node.id
           (nodes (Earlier.run [Earlier.ClearAll true; Earlier.TypeMessage "a";
                                Earlier.CreateNode somewhere] initialState))).
Proof.
  assert (Earlier.reachable
            (Earlier.run [Earlier.ClearAll true; Earlier.TypeMessage "a";
                          Earlier.CreateNode somewhere] initialState))
    as Hreach by (by eexists).
  split_and!; [exact Hreach|reflexivity|].
  exact (proj1 (earlier_ids_unique _ Hreach)).
Defined.

(** ** Removing edges, and stale selections *)

Lemma path_filter keep edges a b :
  path (List.filter keep edges) a b → path edges a b.
Proof.
  apply rtc_subrel. intros c d (e & [He _]%list_elem_of_In%filter_In & Hsrc & Htgt).
  exists e. split; [by apply list_elem_of_In|done].
Qed.

(** X18. Removing edges never makes the cycle check stricter, and adding
    edges never makes it laxer: what [wouldCreateCycle] reports on a part
    of the edges it reports on all of them. *)
Theorem wouldCreateCycle_monotone (edges more : list Edge.t)
    (keep : Edge.t → bool) (sourceId targetId : string) :
  (wouldCreateCycle (List.filter keep edges) sourceId targetId = true →
   wouldCreateCycle edges sourceId targetId = true) ∧
  (wouldCreateCycle edges sourceId targetId = true →
   wouldCreateCycle (edges ++ more) sourceId targetId = true).
Proof.
  rewrite !wouldCreateCycle_path. split.
  - apply path_filter.
  - apply path_app_l.
Qed.

(** X19. A selection that names nothing in the graph is harmless: with a
    selected node id that no node carries and no edge touches,
    [deleteSelectedNode] and [updateSelectedNode] leave the nodes and the
    edges as they are; with a selected edge id that no edge carries,
    [deleteSelectedEdge] leaves the edges as they are, and yet reports a
    removed connection. *)
Theorem stale_selection_is_harmless (st : AppState) (X : string) :
  (selectedNodeId st = Some X →
   X ∉ map Node.id (nodes st) →
   (∀ edge, edge ∈ edges st → Edge.source edge ≠ X ∧ Edge.target edge ≠ X) →
   nodes (deleteSelectedNode st) = nodes st ∧
   edges (deleteSelectedNode st) = edges st ∧
   nodes (updateSelectedNode st) = nodes st ∧
   edges (updateSelectedNode st) = edges st) ∧
  (selectedEdgeId st = Some X → X ≠ "" →
   X ∉ map Edge.id (edges st) →
   edges (deleteSelectedEdge st) = edges st ∧
   nodes (deleteSelectedEdge st) = nodes st ∧
   toasts (deleteSelectedEdge st) = toasts st ++ [msgConnectionRemoved]).
Proof.
  split.
  - intros Hsel Hnode Hedges.
    assert (∀ node, node ∈ nodes st → Node.id node ≠ X) as Hids.
    { intros node Hin Heq. apply Hnode. rewrite <-Heq.
      apply list_elem_of_fmap. eauto. }
    unfold deleteSelectedNode, updateSelectedNode. rewrite Hsel.
    destruct (negb (truthy_opt (Some X))); simpl.
    + by destruct (negb (truthy (trim (messageText st)))).
    + assert (map (λ node,
                     if bool_decide (Some (Node.id node) = Some X)
                     then {| Node.id := Node.id node;
                             Node.type := Node.type node;
                             Node.position := Node.position node;
                             Node.data := {| message := messageText st |} |}
                     else node) (nodes st) = nodes st) as Hmap.
      { rewrite <-(map_id (nodes st)) at 2. apply map_ext_in.
        intros node Hin%list_elem_of_In%Hids.
        rewrite bool_decide_eq_false_2; [done|congruence]. }
      split_and!.
      * apply filter_id_all. intros node Hin%Hids.
        apply bool_decide_eq_true_2. congruence.
      * apply filter_id_all. intros edge [? ?]%Hedges.
        apply andb_true_intro.
        split; apply bool_decide_eq_true_2; congruence.
      * destruct (negb (truthy (trim (messageText st)))); [done|]. simpl.
        exact Hmap.
      * by destruct (negb (truthy (trim (messageText st)))).
  - intros Hsel Hne%truthy_true Hid.
    unfold deleteSelectedEdge. rewrite Hsel. simpl. rewrite Hne. simpl.
    split_and!; [|done|done].
    apply filter_id_all. intros edge Hin.
    apply bool_decide_eq_true_2. intros [= Heq].
    apply Hid, list_elem_of_fmap. eauto.
Qed.
